(** * Subscription node renaming pipeline: a shallow embedding of [operator]

    The script under study is one JavaScript function, [operator(proxies)],
    that reads a flat option map ([$arguments]) and rewrites a list of proxy
    nodes: sanitize, filter, dedupe, rename, sort, conflict resolution.

    JavaScript strings are sequences of UTF-16 code units, and the script
    observes them as such ([length], [charCodeAt], surrogate pairs), so a
    string is a list of code units here.  Exceptions are explicit: functions
    that can throw return a [result].

    What the language itself provides is either written out ([decodeURI],
    [parseInt], [split], [trim], [replaceAll], [padStart], the regular
    expressions the script spells out) or, where it depends on Unicode
    tables or on the pattern compiler, taken from a [Runtime] the
    development is parametric in.  Numbers are integers: node fields that
    are fractions, and the host's limit on the length of a string, are
    outside the model; so are records whose conversion to text raises (an
    own [toString] that is no function).  Where the host raises for one of
    these, the functions here return a value. *)

From Stdlib Require Import ZArith NArith Ascii String List Lia Permutation
  Sorted HexadecimalPos.
From stdpp Require Import base option list gmap strings pretty.

#[local] Set Warnings "-register-all".

Local Open Scope N_scope.

(** ** Strings *)

Definition jsstring : Type := list N.

(** Source literals are written as ordinary (UTF-8) strings and read as
    UTF-16: decode the bytes to code points, then encode the code points. *)

Definition utf16_encode (cp : N) : jsstring :=
  if cp <? 65536 then [cp]
  else [55296 + (cp - 65536) / 1024; 56320 + (cp - 65536) mod 1024].

Fixpoint utf8_code_points (bs : list N) : list N :=
  match bs with
  | [] => []
  | b :: rest =>
    if b <? 128 then b :: utf8_code_points rest
    else if b <? 224 then
      match rest with
      | b1 :: rest' => ((b - 192) * 64 + (b1 - 128)) :: utf8_code_points rest'
      | _ => []
      end
    else if b <? 240 then
      match rest with
      | b1 :: b2 :: rest' =>
        ((b - 224) * 4096 + (b1 - 128) * 64 + (b2 - 128)) :: utf8_code_points rest'
      | _ => []
      end
    else
      match rest with
      | b1 :: b2 :: b3 :: rest' =>
        ((b - 240) * 262144 + (b1 - 128) * 4096 + (b2 - 128) * 64 + (b3 - 128))
          :: utf8_code_points rest'
      | _ => []
      end
  end.

Definition js (s : string) : jsstring :=
  flat_map utf16_encode
    (utf8_code_points (List.map N_of_ascii (list_ascii_of_string s))).
Arguments js : simpl never.

Definition str_eqb (a b : jsstring) : bool := bool_decide (a = b).

(** Truthiness of a string: non-empty. *)
Definition truthy (s : jsstring) : bool :=
  match s with [] => false | _ => true end.

(** [a || b] on an optional string option and a default. *)
Definition or_default (v : option jsstring) (d : jsstring) : jsstring :=
  match v with
  | Some s => if truthy s then s else d
  | None => d
  end.

(** *** Character classes *)

Definition in_range (lo hi c : N) : bool := (lo <=? c) && (c <=? hi).

Definition is_ascii (c : N) : bool := c <? 128.
Definition is_upper (c : N) : bool := in_range 65 90 c.
Definition is_lower (c : N) : bool := in_range 97 122 c.
Definition is_digit (c : N) : bool := in_range 48 57 c.
Definition is_alnum (c : N) : bool := is_upper c || is_lower c || is_digit c.

(** [\w]: letters, digits and underscore. *)
Definition is_word (c : N) : bool := is_alnum c || (c =? 95).

(** [\s], which is also the set [trim] strips: WhiteSpace and
    LineTerminator of the language definition. *)
Definition is_space (c : N) : bool :=
  in_range 9 13 c || (c =? 32) || (c =? 160) || (c =? 5760)
  || in_range 8192 8202 c || (c =? 8232) || (c =? 8233) || (c =? 8239)
  || (c =? 8287) || (c =? 12288) || (c =? 65279).

Definition is_high_surrogate (c : N) : bool := in_range 55296 56319 c.
Definition is_low_surrogate (c : N) : bool := in_range 56320 57343 c.

Definition ascii_upper (c : N) : N := if is_lower c then c - 32 else c.
Definition ascii_lower (c : N) : N := if is_upper c then c + 32 else c.

(** *** String methods *)

Fixpoint drop_spaces (s : jsstring) : jsstring :=
  match s with
  | c :: rest => if is_space c then drop_spaces rest else s
  | [] => []
  end.

(** [s.trim()] *)
Definition trim (s : jsstring) : jsstring :=
  rev (drop_spaces (rev (drop_spaces s))).

(** [s.split(sep)] for a separator that is one character out of a class:
    [split(/[+,]/)] and [split(':')]. *)
Fixpoint split_on (p : N → bool) (s : jsstring) : list jsstring :=
  match s with
  | [] => [[]]
  | c :: rest =>
    if p c then [] :: split_on p rest
    else match split_on p rest with
         | h :: t => (c :: h) :: t
         | [] => [[c]]
         end
  end.

Fixpoint starts_with (k s : jsstring) : bool :=
  match k, s with
  | [], _ => true
  | a :: k', b :: s' => (a =? b) && starts_with k' s'
  | _ :: _, [] => false
  end.

(** [s.includes(k)] *)
Fixpoint includes (s k : jsstring) : bool :=
  starts_with k s ||
  match s with
  | [] => false
  | _ :: rest => includes rest k
  end.

(** [parts.join(sep)] *)
Fixpoint join (sep : jsstring) (parts : list jsstring) : jsstring :=
  match parts with
  | [] => []
  | [p] => p
  | p :: rest => p ++ sep ++ join sep rest
  end.

(** [s.padStart(n, '0')] for an integral [n], within the host's limit on
    the length of a string. *)
Definition padStart0 (n : Z) (s : jsstring) : jsstring :=
  replicate (Z.to_nat n - length s)%nat 48 ++ s.

(** [s.slice(-n)] for an integral [n ≥ 1]: the last [n] code units. *)
Definition slice_last (n : Z) (s : jsstring) : jsstring :=
  drop (length s - Z.to_nat n)%nat s.

(** *** Numbers to text *)

Fixpoint uint_units (d : Decimal.uint) : jsstring :=
  match d with
  | Decimal.Nil => []
  | Decimal.D0 d => 48 :: uint_units d
  | Decimal.D1 d => 49 :: uint_units d
  | Decimal.D2 d => 50 :: uint_units d
  | Decimal.D3 d => 51 :: uint_units d
  | Decimal.D4 d => 52 :: uint_units d
  | Decimal.D5 d => 53 :: uint_units d
  | Decimal.D6 d => 54 :: uint_units d
  | Decimal.D7 d => 55 :: uint_units d
  | Decimal.D8 d => 56 :: uint_units d
  | Decimal.D9 d => 57 :: uint_units d
  end.

Fixpoint hex_units (d : Hexadecimal.uint) : jsstring :=
  match d with
  | Hexadecimal.Nil => []
  | Hexadecimal.D0 d => 48 :: hex_units d
  | Hexadecimal.D1 d => 49 :: hex_units d
  | Hexadecimal.D2 d => 50 :: hex_units d
  | Hexadecimal.D3 d => 51 :: hex_units d
  | Hexadecimal.D4 d => 52 :: hex_units d
  | Hexadecimal.D5 d => 53 :: hex_units d
  | Hexadecimal.D6 d => 54 :: hex_units d
  | Hexadecimal.D7 d => 55 :: hex_units d
  | Hexadecimal.D8 d => 56 :: hex_units d
  | Hexadecimal.D9 d => 57 :: hex_units d
  | Hexadecimal.Da d => 97 :: hex_units d
  | Hexadecimal.Db d => 98 :: hex_units d
  | Hexadecimal.Dc d => 99 :: hex_units d
  | Hexadecimal.Dd d => 100 :: hex_units d
  | Hexadecimal.De d => 101 :: hex_units d
  | Hexadecimal.Df d => 102 :: hex_units d
  end.

(** [n.toString()] and [n.toString(16)] for a non-negative integer. *)
Definition decimal (n : N) : jsstring := uint_units (N.to_uint n).
Definition hexadecimal (n : N) : jsstring := hex_units (N.to_hex_uint n).

(** [String(z)] for an integer. *)
Definition decimalZ (z : Z) : jsstring :=
  match z with
  | Z.neg p => 45 :: decimal (N.pos p)
  | _ => decimal (Z.to_N z)
  end.

(** ** Exceptions *)

Inductive error := URIError | SyntaxError.

Inductive result (A : Type) :=
| Ok (a : A)
| Throw (e : error).
Arguments Ok {A} a.
Arguments Throw {A} e.

#[global] Instance result_ret : MRet result := λ A a, Ok a.
#[global] Instance result_bind : MBind result := λ A B k r,
  match r with
  | Ok a => k a
  | Throw e => Throw e
  end.

(** [try { f } catch { return null }] *)
Definition catch {A} (r : result A) : option A :=
  match r with Ok a => Some a | Throw _ => None end.

(** ** [decodeURI] *)

Definition hex_val (c : N) : option N :=
  if is_digit c then Some (c - 48)
  else if in_range 65 70 c then Some (c - 55)
  else if in_range 97 102 c then Some (c - 87)
  else None.

Definition hex_octet (a b : N) : option N :=
  match hex_val a, hex_val b with
  | Some x, Some y => Some (16 * x + y)
  | _, _ => None
  end.

(** The escapes [decodeURI] leaves in place: [; / ? : @ & = + $ ,] and [#]. *)
Definition uri_reserved (c : N) : bool :=
  bool_decide (c ∈ [59; 47; 63; 58; 64; 38; 61; 43; 36; 44; 35]).

Definition is_cont (b : N) : bool := in_range 128 191 b.

(** An escaped continuation octet [%XX] read from three code units. *)
Definition cont_octet (p a b : N) : option N :=
  if p =? 37 then
    match hex_octet a b with
    | Some o => if is_cont o then Some (o - 128) else None
    | None => None
    end
  else None.

(** The decoding loop.  A [%] must be followed by two hexadecimal digits;
    an octet below 128 is a character (kept escaped when reserved); a lead
    octet announces one to three further escaped octets, and the whole must
    be the UTF-8 form of a code point (shortest form, no surrogate, at most
    U+10FFFF).  Anything else is a [URIError]. *)
Fixpoint decodeURI (s : jsstring) : result jsstring :=
  match s with
  | [] => Ok []
  | c :: rest =>
    if negb (c =? 37) then r ← decodeURI rest; Ok (c :: r)
    else
      match rest with
      | a :: b :: rest1 =>
        match hex_octet a b with
        | None => Throw URIError
        | Some o =>
          if o <? 128 then
            r ← decodeURI rest1;
            Ok (if uri_reserved o then c :: a :: b :: r else o :: r)
          else if o <? 192 then Throw URIError
          else if o <? 224 then
            match rest1 with
            | p1 :: a1 :: b1 :: rest2 =>
              match cont_octet p1 a1 b1 with
              | Some o1 =>
                let cp := (o - 192) * 64 + o1 in
                if cp <? 128 then Throw URIError
                else r ← decodeURI rest2; Ok (utf16_encode cp ++ r)
              | None => Throw URIError
              end
            | _ => Throw URIError
            end
          else if o <? 240 then
            match rest1 with
            | p1 :: a1 :: b1 :: p2 :: a2 :: b2 :: rest3 =>
              match cont_octet p1 a1 b1, cont_octet p2 a2 b2 with
              | Some o1, Some o2 =>
                let cp := (o - 224) * 4096 + o1 * 64 + o2 in
                if (cp <? 2048) || in_range 55296 57343 cp then Throw URIError
                else r ← decodeURI rest3; Ok (utf16_encode cp ++ r)
              | _, _ => Throw URIError
              end
            | _ => Throw URIError
            end
          else if o <? 248 then
            match rest1 with
            | p1 :: a1 :: b1 :: p2 :: a2 :: b2 :: p3 :: a3 :: b3 :: rest4 =>
              match cont_octet p1 a1 b1, cont_octet p2 a2 b2,
                    cont_octet p3 a3 b3 with
              | Some o1, Some o2, Some o3 =>
                let cp := (o - 240) * 262144 + o1 * 4096 + o2 * 64 + o3 in
                if (cp <? 65536) || (1114111 <? cp) then Throw URIError
                else r ← decodeURI rest4; Ok (utf16_encode cp ++ r)
              | _, _, _ => Throw URIError
              end
            | _ => Throw URIError
            end
          else Throw URIError
        end
      | _ => Throw URIError
      end
  end.

(** ** [parseInt(s, 10)] *)

Inductive number := NaN | Int (z : Z).

Fixpoint digits_value (acc : Z) (s : jsstring) : Z :=
  match s with
  | c :: rest =>
    if is_digit c then digits_value (10 * acc + Z.of_N (c - 48))%Z rest
    else acc
  | [] => acc
  end.

Definition parse_digits (s : jsstring) : option Z :=
  match s with
  | c :: _ => if is_digit c then Some (digits_value 0 s) else None
  | [] => None
  end.

Definition parseInt (s : jsstring) : number :=
  match drop_spaces s with
  | c :: rest =>
    if c =? 45 then
      match parse_digits rest with Some z => Int (- z) | None => NaN end
    else if c =? 43 then
      match parse_digits rest with Some z => Int z | None => NaN end
    else
      match parse_digits (c :: rest) with Some z => Int z | None => NaN end
  | [] => NaN
  end.

(** ** Text processing functions *)

(** [s.replace(/[\uD800-\uDBFF][\uDC00-\uDFFF]/g, "")] *)
Fixpoint removeEmoji (s : jsstring) : jsstring :=
  match s with
  | [] => []
  | c :: rest =>
    match rest with
    | d :: rest' =>
      if is_high_surrogate c && is_low_surrogate d then removeEmoji rest'
      else c :: removeEmoji rest
    | [] => [c]
    end
  end.

(** [sanitizeChars]: backslash, slash, colon, asterisk, question mark,
    double quote, angle brackets and bar each become a hyphen. *)
Definition illegal_char (c : N) : bool :=
  bool_decide (c ∈ [92; 47; 58; 42; 63; 34; 60; 62; 124]).

Definition sanitizeChars (s : jsstring) : jsstring :=
  (λ c, if illegal_char c then 45 else c) <$> s.

(** A global replacement of whitespace runs: [pending] is the run read so
    far and [flush] what a complete run is replaced with. *)
Fixpoint replace_space_runs (flush : jsstring → jsstring)
    (pending : jsstring) (s : jsstring) : jsstring :=
  match s with
  | [] => flush pending
  | c :: rest =>
    if is_space c then replace_space_runs flush (pending ++ [c]) rest
    else flush pending ++ c :: replace_space_runs flush [] rest
  end.

(** [/\s{2,}/g → ' '] leaves a single whitespace character alone. *)
Definition flush_two_or_more (run : jsstring) : jsstring :=
  match run with
  | [] => []
  | [c] => [c]
  | _ => [32]
  end.

(** [/\s+/g → ' '] *)
Definition flush_one_or_more (run : jsstring) : jsstring :=
  match run with
  | [] => []
  | _ => [32]
  end.

Definition trimSpaces (s : jsstring) : jsstring :=
  trim (replace_space_runs flush_two_or_more [] s).

(** [s.slice(0, e)]: a negative end counts from the end of the string. *)
Definition slice_to (e : Z) (s : jsstring) : jsstring :=
  if (e <? 0)%Z then take (Z.to_nat (Z.of_nat (length s) + e)) s
  else take (Z.to_nat e) s.

(** [truncateText(s, maxLen)]; the ellipsis is U+2026. *)
Definition truncateText (s : jsstring) (maxLen : Z) : jsstring :=
  if (maxLen =? 0)%Z then s
  else if (maxLen <? Z.of_nat (length s))%Z
       then slice_to (maxLen - 1) s ++ [8230]
       else s.

Definition is_cjk (c : N) : bool :=
  in_range 11904 12031 c || in_range 12032 12255 c || in_range 12352 12543 c
  || in_range 13312 19903 c || in_range 19968 40959 c
  || in_range 63744 64255 c.

(** The loop appends [curr], then a space when [curr] and [next] sit on a
    CJK/alphanumeric boundary and the text built so far does not already end
    in a space; the text built so far ends in [curr]. *)
Fixpoint addCjkSpaces (s : jsstring) : jsstring :=
  match s with
  | [] => []
  | curr :: rest =>
    curr ::
    match rest with
    | next :: _ =>
      if (is_cjk curr && is_alnum next) || (is_alnum curr && is_cjk next)
      then (if curr =? 32 then [] else [32])
      else []
    | [] => []
    end ++ addCjkSpaces rest
  end.

(** ** [generateHash]

    Numbers are modelled by unbounded integers.  [hash << 5] first reduces
    its operand to a signed 32-bit integer and yields one; the two additions
    are ordinary additions, so the running value is not reduced between
    iterations (it grows by less than 2^32 per character, far inside the
    range where the host's numbers are exact for any realistic name). *)

Definition to_int32 (z : Z) : Z := ((z + 2147483648) mod 4294967296 - 2147483648)%Z.
Definition to_uint32 (z : Z) : Z := (z mod 4294967296)%Z.

(** [x << n] *)
Definition shl32 (x : Z) (n : Z) : Z := to_int32 (Z.shiftl (to_int32 x) n).

Definition hash_step (hash : Z) (c : N) : Z :=
  (shl32 hash 5 + hash + Z.of_N c)%Z.

Definition hash_loop (text : jsstring) : Z := fold_left hash_step text 5381%Z.

(** [Math.max(k, n)] *)
Definition math_max (k : Z) (n : number) : number :=
  match n with
  | NaN => NaN
  | Int z => Int (Z.max k z)
  end.

(** [s.slice(-n)]: a [NaN] count converts to 0 and [slice(0)] is the whole
    string. *)
Definition slice_neg (n : number) (s : jsstring) : jsstring :=
  match n with
  | NaN => s
  | Int z => slice_last z s
  end.

Definition generateHash (str : jsstring) (len : number) : jsstring :=
  slice_neg (math_max 1 len) (hexadecimal (Z.to_N (to_uint32 (hash_loop str)))).

(** ** [replaceAll] with a string pattern

    The replacement text is a template: [$$] is a dollar sign, [$&] the
    matched text, [$`] the text before the match and [$'] the text after it.
    With a string pattern there are no captures, so any other [$] sequence
    stands for itself. *)
Fixpoint get_substitution (matched before after repl : jsstring) : jsstring :=
  match repl with
  | [] => []
  | c :: rest =>
    if c =? 36 then
      match rest with
      | d :: rest' =>
        if d =? 36 then 36 :: get_substitution matched before after rest'
        else if d =? 38 then matched ++ get_substitution matched before after rest'
        else if d =? 96 then before ++ get_substitution matched before after rest'
        else if d =? 39 then after ++ get_substitution matched before after rest'
        else c :: get_substitution matched before after rest
      | [] => [c]
      end
    else c :: get_substitution matched before after rest
  end.

(** Non-overlapping occurrences, left to right.  [skip] counts the code
    units of the current occurrence still to pass over, and [before] is the
    part of the subject already passed. *)
Fixpoint replaceAll_loop (pat repl : jsstring) (skip : nat)
    (before s : jsstring) : jsstring :=
  match s with
  | [] => []
  | c :: rest =>
    match skip with
    | S n => replaceAll_loop pat repl n (before ++ [c]) rest
    | O =>
      if starts_with pat s then
        get_substitution pat before (drop (length pat) s) repl
        ++ replaceAll_loop pat repl (length pat - 1)%nat (before ++ [c]) rest
      else c :: replaceAll_loop pat repl O (before ++ [c]) rest
    end
  end.

(** [s.replaceAll(pat, repl)] for a non-empty [pat]. *)
Definition replaceAll (pat repl s : jsstring) : jsstring :=
  replaceAll_loop pat repl O [] s.

(** ** Regular expressions of the built-in tables

    The patterns written in the script use literal characters, [\s], [\b],
    the postfix [?] on a single atom and top-level alternation, all under
    the [i] flag.  They are matched the way the language defines it:
    leftmost start, alternatives in order, [?] greedy, with backtracking. *)

Inductive regex :=
| REps
| RChar (c : N)
| RSpace
| RBoundary
| ROpt (r : regex)
| RSeq (r1 r2 : regex)
| RAlt (r1 r2 : regex).

(** Case folding of the [i] flag.  Every pattern character in the script is
    an ASCII character or a caseless one, and a non-ASCII character never
    folds to an ASCII one, so folding ASCII letters decides equality. *)
Definition fold_eqb (a b : N) : bool := ascii_upper a =? ascii_upper b.

Definition is_word_at (c : option N) : bool :=
  match c with Some x => is_word x | None => false end.

(** A position in the subject is the character before it ([prev]) and the
    text from it on.  [k] is what remains to be matched. *)
Fixpoint rmatch {X} (r : regex) (prev : option N) (s : jsstring)
    (k : option N → jsstring → option X) : option X :=
  match r with
  | REps => k prev s
  | RChar c =>
    match s with
    | x :: s' => if fold_eqb x c then k (Some x) s' else None
    | [] => None
    end
  | RSpace =>
    match s with
    | x :: s' => if is_space x then k (Some x) s' else None
    | [] => None
    end
  | RBoundary =>
    if xorb (is_word_at prev) (is_word_at (head s)) then k prev s else None
  | ROpt r1 =>
    match rmatch r1 prev s k with
    | Some v => Some v
    | None => k prev s
    end
  | RSeq r1 r2 => rmatch r1 prev s (λ p s', rmatch r2 p s' k)
  | RAlt r1 r2 =>
    match rmatch r1 prev s k with
    | Some v => Some v
    | None => rmatch r2 prev s k
    end
  end.

(** The match starting exactly here, as the text that follows it. *)
Definition match_here (r : regex) (prev : option N) (s : jsstring)
  : option jsstring := rmatch r prev s (λ _ rest, Some rest).

(** [r.test(s)] *)
Fixpoint regex_search (r : regex) (prev : option N) (s : jsstring) : bool :=
  match match_here r prev s with
  | Some _ => true
  | None =>
    match s with
    | c :: s' => regex_search r (Some c) s'
    | [] => false
    end
  end.

Definition regex_test (r : regex) (s : jsstring) : bool := regex_search r None s.

(** [s.replace(r, '')]: the first match is removed. *)
Fixpoint regex_delete_from (r : regex) (prev : option N) (s : jsstring)
  : jsstring :=
  match match_here r prev s with
  | Some rest => rest
  | None =>
    match s with
    | c :: s' => c :: regex_delete_from r (Some c) s'
    | [] => []
    end
  end.

Definition regex_delete (r : regex) (s : jsstring) : jsstring :=
  regex_delete_from r None s.

(** [s.replace(r, '')] under the [g] flag: every match is removed; after an
    empty match the search moves on by one code unit. *)
Fixpoint regex_delete_all_from (r : regex) (skip : nat) (prev : option N)
    (s : jsstring) : jsstring :=
  match s with
  | [] => []
  | c :: s' =>
    match skip with
    | S n => regex_delete_all_from r n (Some c) s'
    | O =>
      match match_here r prev s with
      | Some rest =>
        match (length s - length rest)%nat with
        | O => c :: regex_delete_all_from r O (Some c) s'
        | S n => regex_delete_all_from r n (Some c) s'
        end
      | None => c :: regex_delete_all_from r O (Some c) s'
      end
    end
  end.

Definition regex_delete_all (r : regex) (s : jsstring) : jsstring :=
  regex_delete_all_from r O None s.

(** Reading a pattern of this fragment from its source text. *)
Definition atom_of_escape (x : N) : regex :=
  if x =? 115 then RSpace else if x =? 98 then RBoundary else RChar x.

Fixpoint parse_seq (s : jsstring) : regex :=
  match s with
  | [] => REps
  | c :: rest =>
    if c =? 92 then
      match rest with
      | x :: rest1 =>
        match rest1 with
        | q :: rest2 =>
          if q =? 63 then RSeq (ROpt (atom_of_escape x)) (parse_seq rest2)
          else RSeq (atom_of_escape x) (parse_seq rest1)
        | [] => atom_of_escape x
        end
      | [] => RChar c
      end
    else
      match rest with
      | q :: rest1 =>
        if q =? 63 then RSeq (ROpt (RChar c)) (parse_seq rest1)
        else RSeq (RChar c) (parse_seq rest)
      | [] => RChar c
      end
  end.

Fixpoint alternatives (rs : list regex) : regex :=
  match rs with
  | [] => REps
  | [r] => r
  | r :: rest => RAlt r (alternatives rest)
  end.

Definition parse_regex (src : jsstring) : regex :=
  alternatives (parse_seq <$> split_on (N.eqb 124) src).

(** A pattern written in the script. *)
Definition rx (src : string) : regex := parse_regex (js src).

Local Close Scope N_scope.

(** ** The host

    What the script takes from its host: Unicode case mapping and
    normalization, locale-aware comparison, and the regular-expression
    engine behind [new RegExp(src, 'i')] for patterns that come from the
    option map.  The two laws say what the case mappings do on ASCII text. *)

Class Runtime := {
  toUpperCase : jsstring → jsstring;
  toLowerCase : jsstring → jsstring;
  normalizeNFKC : jsstring → jsstring;
  localeCompare : jsstring → jsstring → Z;
  RegExp : Type;
  (** [None]: the constructor throws a [SyntaxError]. *)
  RegExp_new : jsstring → option RegExp;
  RegExp_test : RegExp → jsstring → bool;
  (** [s.replace(r, '')] *)
  RegExp_delete : RegExp → jsstring → jsstring;
  toUpperCase_ascii s :
    forallb is_ascii s = true → toUpperCase s = ascii_upper <$> s;
  toLowerCase_ascii s :
    forallb is_ascii s = true → toLowerCase s = ascii_lower <$> s
}.

(** ** Values and node records *)

Inductive value :=
| VUndefined
| VNull
| VBool (b : bool)
| VNum (n : Z)
| VStr (s : jsstring)
| VArray (l : list value)
| VObject (fields : list (string * value)).

(** A record is its own properties in insertion order. *)
Definition obj : Type := list (string * value).

(** [o.k], [undefined] when absent. *)
Fixpoint get (o : obj) (k : string) : value :=
  match o with
  | [] => VUndefined
  | (k', v) :: rest => if String.eqb k' k then v else get rest k
  end.

(** [o.k = v]: an existing property keeps its place, a new one goes last. *)
Fixpoint set_field (k : string) (v : value) (o : obj) : obj :=
  match o with
  | [] => [(k, v)]
  | (k', v') :: rest =>
    if String.eqb k' k then (k, v) :: rest else (k', v') :: set_field k v rest
  end.

(** [String(v)].  Numbers are integers here; a plain record prints as
    [[object Object]], an array as its elements joined by commas with
    [null] and [undefined] printed empty. *)
Fixpoint to_string (v : value) : jsstring :=
  match v with
  | VUndefined => js "undefined"
  | VNull => js "null"
  | VBool true => js "true"
  | VBool false => js "false"
  | VNum n => decimalZ n
  | VStr s => s
  | VArray l =>
    join (js ",")
      (List.map (λ e, match e with
                      | VUndefined | VNull => []
                      | _ => to_string e
                      end) l)
  | VObject _ => js "[object Object]"
  end.

(** [safeStr] *)
Definition safeStr (v : value) : jsstring :=
  match v with
  | VUndefined | VNull => []
  | _ => to_string v
  end.

(** The own enumerable properties of a list entry that passed
    [p && typeof p === 'object']: those of a record, or the indices of an
    array. *)
Definition fields_of (v : value) : option obj :=
  match v with
  | VObject o => Some o
  | VArray l => Some (imap (λ i e, (pretty i, e)) l)
  | _ => None
  end.

(** ** Options *)

Definition parseBool `{rt : Runtime} (v : option jsstring) (defaultVal : bool) : bool :=
  match v with
  | None => defaultVal
  | Some v =>
    let s := toLowerCase v in
    if bool_decide (s ∈ [js "1"; js "true"; js "on"; js "yes"]) then true
    else if bool_decide (s ∈ [js "0"; js "false"; js "off"; js "no"]) then false
    else defaultVal
  end.

Definition is_list_sep (c : N) : bool := (c =? 43)%N || (c =? 44)%N.

Definition parseList (v : option jsstring) : result (list jsstring) :=
  match v with
  | None => Ok []
  | Some v =>
    if truthy v then
      d ← decodeURI v;
      Ok (filter (λ x, truthy x = true) (trim <$> split_on is_list_sep d))
    else Ok []
  end.

Definition toRegex `{rt : Runtime} (v : option jsstring) : option RegExp :=
  match v with
  | None => None
  | Some v =>
    if truthy v then
      match catch (decodeURI v) with
      | Some src => RegExp_new src
      | None => None
      end
    else None
  end.

(** [args.k ? decodeURI(String(args.k)) : d] *)
Definition decoded_or (v : option jsstring) (d : jsstring) : result jsstring :=
  match v with
  | Some s => if truthy s then decodeURI s else Ok d
  | None => Ok d
  end.

(** [args.k ? parseInt(args.k, 10) : d] *)
Definition int_or (v : option jsstring) (d : Z) : number :=
  match v with
  | Some s => if truthy s then parseInt s else Int d
  | None => Int d
  end.

Definition typeAbbr_builtin : gmap jsstring jsstring :=
  list_to_map [
    (js "SHADOWSOCKS", js "SS");
    (js "VMESS", js "VM");
    (js "TROJAN", js "TR");
    (js "HYSTERIA", js "HY");
    (js "HYSTERIA2", js "HY2");
    (js "VLESS", js "VL");
    (js "WIREGUARD", js "WG");
    (js "TUIC", js "TUIC");
    (js "HTTP", js "HTTP");
    (js "SOCKS5", js "S5");
    (js "SNELL", js "SN");
    (js "ANYTLS", js "AT")
  ].

(** One [KEY:VAL] pair of the [map] option.  The table is keyed by
    upper-cased names, which never collide with an inherited property. *)
Definition add_type_pair `{rt : Runtime} (table : gmap jsstring jsstring)
    (pair : jsstring) : gmap jsstring jsstring :=
  match split_on (N.eqb 58) pair with
  | k :: v :: _ =>
    if truthy k && truthy v then <[toUpperCase (trim k) := trim v]> table
    else table
  | _ => table
  end.

(** ** Regions *)

(** The built-in table: pattern source, Chinese label, English label, flag. *)
Definition builtInTable : list (string * string * string * string) := [
  ("Hong\s?Kong|\bHKG?\b|香港", "香港", "Hong Kong", "🇭🇰");
  ("Singapore|\bSGP?\b|新加坡|狮城", "新加坡", "Singapore", "🇸🇬");
  ("Japan|\bJPN?\b|日本|Tokyo|东京|大阪|Osaka", "日本", "Japan", "🇯🇵");
  ("Korea|\bKOR?\b|韩国|Seoul|首尔", "韩国", "Korea", "🇰🇷");
  ("Taiwan|\bTWN?\b|台湾|Taipei|台北", "台湾", "Taiwan", "🇹🇼");
  ("\bChina\b|\bCHN?\b|中国|Beijing|上海|深圳|广州", "中国", "China", "🇨🇳");
  ("Macao|\bMAC\b|\bMO\b|澳门", "澳门", "Macao", "🇲🇴");
  ("Malaysia|\bMYS?\b|马来西亚|Kuala\s?Lumpur", "马来西亚", "Malaysia", "🇲🇾");
  ("Thailand|\bTHA?\b|泰国|Bangkok|曼谷", "泰国", "Thailand", "🇹🇭");
  ("Vietnam|\bVNM?\b|越南|Ho\s?Chi\s?Minh", "越南", "Vietnam", "🇻🇳");
  ("Philippines|\bPHL?\b|菲律宾|Manila", "菲律宾", "Philippines", "🇵🇭");
  ("Indonesia|\bIDN?\b|印尼|印度尼西亚|Jakarta", "印尼", "Indonesia", "🇮🇩");
  ("\bIndia\b|\bIND?\b|印度|Mumbai|Delhi", "印度", "India", "🇮🇳");
  ("\bTurkey\b|\bTUR?\b|土耳其|Istanbul|伊斯坦布尔", "土耳其", "Turkey", "🇹🇷");
  ("Israel|\bISR?\b|以色列|Tel\s?Aviv", "以色列", "Israel", "🇮🇱");
  ("\bUAE\b|\bARE\b|阿联酋|Dubai|迪拜", "阿联酋", "UAE", "🇦🇪");
  ("United\s?States|\bUSA\b|\bUS\b|美国|Los\s?Angeles|San\s?Jose|New\s?York|Chicago|Miami|Seattle|Dallas", "美国", "United States", "🇺🇸");
  ("\bCanada\b|\bCAN?\b|加拿大|Toronto|Vancouver|Montreal", "加拿大", "Canada", "🇨🇦");
  ("Mexico|\bMEX?\b|墨西哥|Mexico\s?City", "墨西哥", "Mexico", "🇲🇽");
  ("United\s?Kingdom|\bGBR\b|\bUK\b|英国|London|伦敦", "英国", "United Kingdom", "🇬🇧");
  ("Germany|\bDEU?\b|德国|Frankfurt|Berlin|法兰克福|柏林", "德国", "Germany", "🇩🇪");
  ("\bFrance\b|\bFRA?\b|法国|Paris|巴黎", "法国", "France", "🇫🇷");
  ("Netherlands|\bNLD?\b|荷兰|Amsterdam|阿姆斯特丹", "荷兰", "Netherlands", "🇳🇱");
  ("Russia|\bRUS?\b|俄罗斯|Moscow|莫斯科", "俄罗斯", "Russia", "🇷🇺");
  ("\bItaly\b|\bITA?\b|意大利|Rome|Milan|罗马|米兰", "意大利", "Italy", "🇮🇹");
  ("\bSpain\b|\bESP?\b|西班牙|Madrid|Barcelona", "西班牙", "Spain", "🇪🇸");
  ("Switzerland|\bCHE?\b|瑞士|Zurich|苏黎世", "瑞士", "Switzerland", "🇨🇭");
  ("Sweden|\bSWE?\b|瑞典|Stockholm", "瑞典", "Sweden", "🇸🇪");
  ("Norway|\bNOR?\b|挪威|Oslo", "挪威", "Norway", "🇳🇴");
  ("Finland|\bFIN?\b|芬兰|Helsinki", "芬兰", "Finland", "🇫🇮");
  ("Denmark|\bDNK?\b|丹麦|Copenhagen", "丹麦", "Denmark", "🇩🇰");
  ("Poland|\bPOL?\b|波兰|Warsaw", "波兰", "Poland", "🇵🇱");
  ("Austria|\bAUT?\b|奥地利|Vienna", "奥地利", "Austria", "🇦🇹");
  ("Belgium|\bBEL?\b|比利时|Brussels", "比利时", "Belgium", "🇧🇪");
  ("Czech|\bCZE?\b|捷克|Prague", "捷克", "Czech Republic", "🇨🇿");
  ("Hungary|\bHUN?\b|匈牙利|Budapest", "匈牙利", "Hungary", "🇭🇺");
  ("Romania|\bROU?\b|罗马尼亚|Bucharest", "罗马尼亚", "Romania", "🇷🇴");
  ("Bulgaria|\bBGR?\b|保加利亚|Sofia", "保加利亚", "Bulgaria", "🇧🇬");
  ("Ukraine|\bUKR?\b|乌克兰|Kiev", "乌克兰", "Ukraine", "🇺🇦");
  ("Ireland|\bIRL?\b|爱尔兰|Dublin", "爱尔兰", "Ireland", "🇮🇪");
  ("Portugal|\bPRT?\b|葡萄牙|Lisbon", "葡萄牙", "Portugal", "🇵🇹");
  ("Greece|\bGRC?\b|希腊|Athens", "希腊", "Greece", "🇬🇷");
  ("Iceland|\bISL?\b|冰岛|Reykjavik", "冰岛", "Iceland", "🇮🇸");
  ("Australia|\bAUS?\b|澳大利亚|澳洲|Sydney|Melbourne|悉尼|墨尔本", "澳大利亚", "Australia", "🇦🇺");
  ("New\s?Zealand|\bNZL?\b|新西兰|Auckland|Wellington", "新西兰", "New Zealand", "🇳🇿");
  ("Brazil|\bBRA?\b|巴西|Sao\s?Paulo|Rio", "巴西", "Brazil", "🇧🇷");
  ("Argentina|\bARG?\b|阿根廷|Buenos\s?Aires", "阿根廷", "Argentina", "🇦🇷");
  ("Chile|\bCHL?\b|智利|Santiago", "智利", "Chile", "🇨🇱");
  ("South\s?Africa|\bZAF?\b|南非|Cape\s?Town|Johannesburg", "南非", "South Africa", "🇿🇦");
  ("Egypt|\bEGY?\b|埃及|Cairo", "埃及", "Egypt", "🇪🇬");
  ("Nigeria|\bNGA?\b|尼日利亚|Lagos", "尼日利亚", "Nigeria", "🇳🇬")
].

(** The flag glyphs that are not regional-indicator pairs. *)
Definition flag_glyphs : regex := rx "🏴‍☠️|🏳️‍🌈|🏳️‍⚧️|🏴|🏳️".

Definition is_regional_indicator (hi lo : N) : bool :=
  (hi =? 55356)%N && in_range 56806 56831 lo.

(** [s.replace(/[\u{1F1E6}-\u{1F1FF}]{2}/gu, '')]: two regional
    indicators in a row are four code units. *)
Fixpoint remove_flag_pairs (s : jsstring) : jsstring :=
  match s with
  | [] => []
  | c1 :: rest =>
    match rest with
    | c2 :: c3 :: c4 :: rest' =>
      if is_regional_indicator c1 c2 && is_regional_indicator c3 c4
      then remove_flag_pairs rest'
      else c1 :: remove_flag_pairs rest
    | _ => c1 :: remove_flag_pairs rest
    end
  end.

Section Operator.
Context `{rt : Runtime}.

Inductive pattern :=
| Builtin (r : regex)
| User (r : RegExp).

Record region := {
  key : pattern;
  zh : jsstring;
  en : jsstring;
  flag : jsstring
}.

Definition key_test (k : pattern) (s : jsstring) : bool :=
  match k with
  | Builtin r => regex_test r s
  | User r => RegExp_test r s
  end.

Definition key_delete (k : pattern) (s : jsstring) : jsstring :=
  match k with
  | Builtin r => regex_delete r s
  | User r => RegExp_delete r s
  end.

Definition builtInRegions : list region :=
  (λ '(k, z, e, f),
     {| key := Builtin (rx k); zh := js z; en := js e; flag := js f |})
  <$> builtInTable.

(** The entries of [regionMap], in order; the first pattern the engine
    rejects throws. *)
Fixpoint userRegions_of (entries : list jsstring) : result (list region) :=
  match entries with
  | [] => Ok []
  | entry :: rest =>
    let parts := split_on (N.eqb 58) entry in
    let p0 := default [] (parts !! 0%nat) in
    if truthy p0 then
      match RegExp_new p0 with
      | None => Throw SyntaxError
      | Some r =>
        rs ← userRegions_of rest;
        Ok ({| key := User r;
               zh := or_default (parts !! 1%nat) p0;
               en := or_default (parts !! 1%nat) p0;
               flag := or_default (parts !! 2%nat) [] |} :: rs)
      end
    else userRegions_of rest
  end.

(** ** Configuration *)

Record config := {
  subName : jsstring;
  useAbbr : bool;
  typeFmt : jsstring;
  typeCase : jsstring;
  sep : jsstring;
  includeType : bool;
  pos : jsstring;
  template : jsstring;
  keepUnknownType : jsstring;
  enableRemoveEmoji : bool;
  enableTrimSpaces : bool;
  enableSanitize : bool;
  maxLen : number;
  enableNormalize : bool;
  enableCjkSpace : bool;
  include : list jsstring;
  exclude : list jsstring;
  rxInclude : option RegExp;
  rxExclude : option RegExp;
  onlyTypes : list jsstring;
  dropTypes : list jsstring;
  dedupe : jsstring;
  sortBy : jsstring;
  sortOrder : jsstring;
  addFlag : bool;
  locLang : jsstring;
  fallbackFlag : jsstring;
  removeRegionName : bool;
  conflict : jsstring;
  indexPad : number;
  hashLen : number;
  typeAbbr : gmap jsstring jsstring;
  userRegions : list region
}.

(** [(args.k || d).toString().toLowerCase()] *)
Definition keyword (v : option jsstring) (d : string) : jsstring :=
  toLowerCase (or_default v (js d)).

(** Option parsing, in the order the script evaluates it: an uncaught
    exception ends the call at the first failing option. *)
Definition parseConfig (args : gmap string jsstring) : result config :=
  subName ← match args !! "name" with
            | Some v => if truthy v then decodeURI v
                        else decoded_or (args !! "subName") []
            | None => decoded_or (args !! "subName") []
            end;
  sep ← match args !! "sep" with
        | Some v => decodeURI v
        | None => Ok (js " - ")
        end;
  template ← decoded_or (args !! "template") [];
  include ← parseList (args !! "include");
  exclude ← parseList (args !! "exclude");
  onlyTypes ← parseList (args !! "onlyTypes");
  dropTypes ← parseList (args !! "dropTypes");
  fallbackFlag ← decoded_or (args !! "fallbackFlag") (js "🏴‍☠️");
  pairs ← parseList (args !! "map");
  entries ← parseList (args !! "regionMap");
  userRegions ← userRegions_of entries;
  Ok {|
    subName := subName;
    useAbbr := parseBool (args !! "abbr") true;
    typeFmt := keyword (args !! "typeFmt") "bracket";
    typeCase := keyword (args !! "case") "upper";
    sep := sep;
    includeType := parseBool (args !! "includeType") true;
    pos := keyword (args !! "pos") "before";
    template := template;
    keepUnknownType := keyword (args !! "keepUnknownType") "short";
    enableRemoveEmoji := parseBool (args !! "removeEmoji") false;
    enableTrimSpaces := parseBool (args !! "trimSpaces") false;
    enableSanitize := parseBool (args !! "sanitize") false;
    maxLen := int_or (args !! "maxLen") 0;
    enableNormalize := parseBool (args !! "normalize") false;
    enableCjkSpace := parseBool (args !! "cjkSpace") false;
    include := include;
    exclude := exclude;
    rxInclude := toRegex (args !! "regexInclude");
    rxExclude := toRegex (args !! "regexExclude");
    onlyTypes := toUpperCase <$> onlyTypes;
    dropTypes := toUpperCase <$> dropTypes;
    dedupe := keyword (args !! "dedupe") "";
    sortBy := keyword (args !! "sortBy") "";
    sortOrder := keyword (args !! "sortOrder") "asc";
    addFlag := parseBool (args !! "addFlag") false;
    locLang := keyword (args !! "locLang") "zh";
    fallbackFlag := fallbackFlag;
    removeRegionName := parseBool (args !! "removeRegionName") false;
    conflict := keyword (args !! "conflict") "index";
    indexPad := int_or (args !! "indexPad") 2;
    hashLen := int_or (args !! "hashLen") 4;
    typeAbbr := fold_left add_type_pair pairs typeAbbr_builtin;
    userRegions := userRegions
  |}.

(** ** Name composition *)

Section Pipeline.
Variable cfg : config.

Definition detectRegion (name : jsstring) : option region :=
  match List.find (λ r, key_test (key r) name) (userRegions cfg) with
  | Some r => Some r
  | None => List.find (λ r, key_test (key r) name) builtInRegions
  end.

Definition buildRegionStr (name : jsstring) : jsstring :=
  if negb (addFlag cfg) then []
  else
    let region := detectRegion name in
    let flag := or_default (flag <$> region) (fallbackFlag cfg) in
    if str_eqb (locLang cfg) (js "flag") then flag
    else
      let label :=
        if str_eqb (locLang cfg) (js "en") then or_default (en <$> region) []
        else or_default (zh <$> region) [] in
      if truthy label then flag ++ js " " ++ label else flag.

Definition buildTypeDisplay (fullType : jsstring) : jsstring :=
  let upperType := toUpperCase fullType in
  let found := or_default (typeAbbr cfg !! upperType) [] in
  if negb (truthy found) && str_eqb (keepUnknownType cfg) (js "ignore") then []
  else
    let abbr :=
      if truthy found then found
      else if str_eqb (keepUnknownType cfg) (js "full") then upperType
      else take 2 upperType in
    let label := if useAbbr cfg then abbr else upperType in
    let label :=
      if str_eqb (typeCase cfg) (js "lower") then toLowerCase label else label in
    if str_eqb (typeFmt cfg) (js "paren") then js "(" ++ label ++ js ")"
    else if str_eqb (typeFmt cfg) (js "none") then label
    else js "[" ++ label ++ js "]".

Definition strip_key (s : jsstring) (r : region) : jsstring :=
  trim (key_delete (key r) s).

Definition cleanRegionFromName (name : jsstring) : jsstring :=
  if negb (removeRegionName cfg) then name
  else
    let cleaned := fold_left strip_key (userRegions cfg) name in
    let cleaned := fold_left strip_key builtInRegions cleaned in
    let cleaned := trim (remove_flag_pairs cleaned) in
    let cleaned := trim (regex_delete_all flag_glyphs cleaned) in
    trim (replace_space_runs flush_one_or_more [] cleaned).

Definition fill_template (typeDisplay regionStr newName : jsstring) : jsstring :=
  replaceAll (js "{name}") newName
    (replaceAll (js "{region}") regionStr
      (replaceAll (js "{type}") typeDisplay
        (replaceAll (js "{sep}") (sep cfg)
          (replaceAll (js "{prefix}") (subName cfg) (template cfg))))).

Definition name_parts (typeDisplay regionStr newName : jsstring) : list jsstring :=
  (if truthy regionStr then [regionStr] else [])
  ++ [subName cfg]
  ++ (if str_eqb (pos cfg) (js "before")
      then (if truthy typeDisplay then [typeDisplay] else []) ++ [newName]
      else [newName] ++ (if truthy typeDisplay then [typeDisplay] else [])).

(** [s.normalize('NFKC')] *)
Definition normalizeUnicode (s : jsstring) : jsstring := normalizeNFKC s.

(** The six text steps, each behind its switch, in the script's order. *)
Definition finish_name (newName : jsstring) : jsstring :=
  let newName := if enableRemoveEmoji cfg then removeEmoji newName else newName in
  let newName := if enableSanitize cfg then sanitizeChars newName else newName in
  let newName := if enableTrimSpaces cfg then trimSpaces newName else newName in
  let newName := if enableNormalize cfg then normalizeUnicode newName else newName in
  let newName :=
    if enableCjkSpace cfg then trimSpaces (addCjkSpaces newName) else newName in
  match maxLen cfg with
  | Int z => if (0 <? z)%Z then truncateText newName z else newName
  | NaN => newName
  end.

Definition shouldFormat : bool :=
  truthy (subName cfg) || truthy (template cfg) || negb (includeType cfg)
  || addFlag cfg.

Definition new_name (proxy : obj) : jsstring :=
  let fullType := toUpperCase (safeStr (get proxy "type")) in
  let typeDisplay := if includeType cfg then buildTypeDisplay fullType else [] in
  let originalName := safeStr (get proxy "name") in
  let newName := cleanRegionFromName originalName in
  let regionStr := buildRegionStr originalName in
  let newName :=
    if shouldFormat then
      if truthy (template cfg) then fill_template typeDisplay regionStr newName
      else if truthy (subName cfg)
           then join (sep cfg) (name_parts typeDisplay regionStr newName)
           else newName
    else newName in
  finish_name newName.

(** [{ ...proxy, name: newName }] *)
Definition processName (proxy : obj) : obj :=
  set_field "name" (VStr (new_name proxy)) proxy.

(** ** Stages *)

(** [Array.isArray(proxies) ? proxies.slice() : []], then the entries that
    are records. *)
Definition sanitize (proxies : value) : list obj :=
  match proxies with
  | VArray l => omap fields_of l
  | _ => []
  end.

Definition node_type (p : obj) : jsstring := toUpperCase (safeStr (get p "type")).
Definition node_name (p : obj) : jsstring := safeStr (get p "name").

Definition is_empty {A} (l : list A) : bool :=
  match l with [] => true | _ => false end.

Definition mem (x : jsstring) (l : list jsstring) : bool := bool_decide (x ∈ l).

Definition keep (p : obj) : bool :=
  let type := node_type p in
  let name := node_name p in
  if negb (is_empty (onlyTypes cfg)) && negb (mem type (onlyTypes cfg)) then false
  else if negb (is_empty (dropTypes cfg)) && mem type (dropTypes cfg) then false
  else if negb (is_empty (include cfg))
          && negb (existsb (includes name) (include cfg)) then false
  else if negb (is_empty (exclude cfg))
          && existsb (includes name) (exclude cfg) then false
  else if match rxInclude cfg with
          | Some r => negb (RegExp_test r name)
          | None => false
          end then false
  else if match rxExclude cfg with
          | Some r => RegExp_test r name
          | None => false
          end then false
  else true.

Definition addr_of (p : obj) : jsstring :=
  safeStr (get p "server") ++ js ":" ++ safeStr (get p "port") ++ js ":"
  ++ node_type p.

(** The key of a node under a recognised [dedupe] mode. *)
Definition dedupe_key (p : obj) : option jsstring :=
  if str_eqb (dedupe cfg) (js "addr") then Some (js "A|" ++ addr_of p)
  else if str_eqb (dedupe cfg) (js "name") then Some (js "N|" ++ node_name p)
  else if str_eqb (dedupe cfg) (js "all")
       then Some (js "A|" ++ addr_of p ++ js "|N|" ++ node_name p)
  else None.

(** The filter callback with its [seen] set threaded through. *)
Fixpoint dedupe_loop (seen : gset jsstring) (l : list obj) : list obj :=
  match l with
  | [] => []
  | p :: rest =>
    match dedupe_key p with
    | None => p :: dedupe_loop seen rest
    | Some k =>
      if bool_decide (k ∈ seen) then dedupe_loop seen rest
      else p :: dedupe_loop ({[k]} ∪ seen) rest
    end
  end.

Definition dedupe_stage (l : list obj) : list obj :=
  if truthy (dedupe cfg) then dedupe_loop ∅ l else l.

(** [list.sort(cmp)]: a stable sort, written as insertion from the right. *)
Definition sort_key (p : obj) : jsstring :=
  if str_eqb (sortBy cfg) (js "type") then node_type p else node_name p.

Definition compare_nodes (a b : obj) : Z :=
  let result := localeCompare (sort_key a) (sort_key b) in
  if str_eqb (sortOrder cfg) (js "desc") then (- result)%Z else result.

Fixpoint insert_sorted (x : obj) (l : list obj) : list obj :=
  match l with
  | [] => [x]
  | y :: rest =>
    if (compare_nodes x y <=? 0)%Z then x :: l else y :: insert_sorted x rest
  end.

Definition sort_stage (l : list obj) : list obj :=
  if truthy (sortBy cfg) then foldr insert_sorted [] l else l.

(** [count.toString().padStart(Math.max(2, indexPad), '0')]; a [NaN] width
    pads nothing. *)
Definition index_suffix (count : N) : jsstring :=
  match math_max 2 (indexPad cfg) with
  | Int w => padStart0 w (decimal count)
  | NaN => decimal count
  end.

Definition hash_input (p : obj) : jsstring :=
  to_string (get p "server") ++ js ":" ++ to_string (get p "port") ++ js ":"
  ++ to_string (get p "type") ++ js ":" ++ to_string (get p "name").

(** The conflict callback with its [nameCount] map threaded through. *)
Fixpoint conflict_loop (nameCount : gmap jsstring N) (l : list obj) : list obj :=
  match l with
  | [] => []
  | p :: rest =>
    let name := node_name p in
    let count := (default 0 (nameCount !! name) + 1)%N in
    let nameCount := <[name := count]> nameCount in
    if (count =? 1)%N then p :: conflict_loop nameCount rest
    else if str_eqb (conflict cfg) (js "drop") then conflict_loop nameCount rest
    else if str_eqb (conflict cfg) (js "hash") then
      set_field "name"
        (VStr (name ++ js "-" ++ generateHash (hash_input p) (hashLen cfg))) p
      :: conflict_loop nameCount rest
    else
      set_field "name" (VStr (name ++ js " " ++ index_suffix count)) p
      :: conflict_loop nameCount rest
  end.

Definition conflict_stage (l : list obj) : list obj :=
  if str_eqb (conflict cfg) (js "none") then l else conflict_loop ∅ l.

Definition run (proxies : value) : list obj :=
  let list := sanitize proxies in
  let list := filter (λ p, keep p = true) list in
  let list := dedupe_stage list in
  let list := processName <$> list in
  let list := sort_stage list in
  conflict_stage list.

End Pipeline.

Definition operator (args : gmap string jsstring) (proxies : value)
  : result (list obj) :=
  cfg ← parseConfig args;
  Ok (run cfg proxies).

End Operator.

Arguments config {rt}.
Arguments region {rt}.

(** ** A reference host

    Exact on ASCII text, where case mapping touches only the letters and
    normalization changes nothing.  Its regular expressions are those of
    the fragment above and it rejects every other pattern; its comparison
    is by code units, which is not the host's collation. *)

Fixpoint compare_units (a b : jsstring) : Z :=
  match a, b with
  | [], [] => 0
  | [], _ :: _ => -1
  | _ :: _, [] => 1
  | x :: a', y :: b' =>
    if (x <? y)%N then -1 else if (y <? x)%N then 1 else compare_units a' b'
  end.

Definition is_meta (c : N) : bool :=
  bool_decide (c ∈ [94; 36; 46; 42; 43; 40; 41; 91; 93; 123; 125]%N).

(** [quantifiable]: the previous token is an atom a [?] may follow. *)
Fixpoint in_fragment (quantifiable : bool) (s : jsstring) : bool :=
  match s with
  | [] => true
  | c :: rest =>
    if (c =? 92)%N then
      match rest with
      | x :: rest' =>
        if (x =? 115)%N then in_fragment true rest'
        else if (x =? 98)%N then in_fragment false rest'
        else false
      | [] => false
      end
    else if (c =? 63)%N then quantifiable && in_fragment false rest
    else if (c =? 124)%N then in_fragment false rest
    else if is_meta c then false
    else in_fragment true rest
  end.

#[refine] Instance reference_runtime : Runtime := {|
  toUpperCase s := ascii_upper <$> s;
  toLowerCase s := ascii_lower <$> s;
  normalizeNFKC s := s;
  localeCompare := compare_units;
  RegExp := regex;
  RegExp_new src := if in_fragment false src then Some (parse_regex src) else None;
  RegExp_test := regex_test;
  RegExp_delete := regex_delete
|}.
Proof. all: reflexivity. Defined.

(** * Specification-side definitions *)

(** ** The hash as the specification words it

    An unsigned 32-bit rolling hash seeded at 5381, updated per character
    as [hash * 33 + charCode] modulo 2^32, printed in lowercase hexadecimal
    and cut down to its last [max 1 hashLen] characters. *)

Definition rolling_hash (s : jsstring) : Z :=
  fold_left (λ h c, (h * 33 + Z.of_N c) mod 2 ^ 32)%Z s 5381%Z.

Definition last_chars (n : nat) (s : jsstring) : jsstring :=
  rev (take n (rev s)).

Definition spec_hash (s : jsstring) (hashLen : Z) : jsstring :=
  last_chars (Z.to_nat (Z.max 1 hashLen))
    (hexadecimal (Z.to_N (rolling_hash s))).

(** ** First-wins deduplication as the specification words it

    A node survives exactly when no earlier node of the list, kept or not,
    has its key. *)

Fixpoint first_per_key {A K} `{EqDecision K} (key : A → K)
    (earlier : list K) (l : list A) : list A :=
  match l with
  | [] => []
  | x :: rest =>
    (if decide (key x ∈ earlier) then [] else [x])
    ++ first_per_key key (earlier ++ [key x]) rest
  end.

(** ** Occurrences of a name *)

Definition occurrences (name : jsstring) (l : list obj) : N :=
  N.of_nat (length (filter (λ p, node_name p = name) l)).

(** A record whose [name] is a string. *)
Definition has_name (p : obj) : Prop := ∃ n, get p "name" = VStr n.

(** [q] is [p] under some name: same properties in the same order, and
    only [name] may differ. *)
Inductive renamed (p : obj) : obj → Prop :=
| renamed_same : renamed p p
| renamed_name n : renamed p (set_field "name" (VStr n) p).

Definition same_but_name (p q : obj) : Prop :=
  (∃ n, q = set_field "name" (VStr n) p)
  ∧ (∀ k, k ≠ "name" → get q k = get p k)
  ∧ ("name" ∈ p.*1 → q.*1 = p.*1).

(** ** Configurations the options resolve to *)

Section Configurations.
Context `{rt : Runtime}.

(** Every option at its default, but for the prefix, the flag switch and
    the conflict mode. *)
Definition base_config (prefix : jsstring) (flags : bool) (mode : string)
  : config := {|
  subName := prefix;
  useAbbr := true;
  typeFmt := js "bracket";
  typeCase := js "upper";
  sep := js " - ";
  includeType := true;
  pos := js "before";
  template := [];
  keepUnknownType := js "short";
  enableRemoveEmoji := false;
  enableTrimSpaces := false;
  enableSanitize := false;
  maxLen := Int 0;
  enableNormalize := false;
  enableCjkSpace := false;
  include := [];
  exclude := [];
  rxInclude := None;
  rxExclude := None;
  onlyTypes := [];
  dropTypes := [];
  dedupe := [];
  sortBy := [];
  sortOrder := js "asc";
  addFlag := flags;
  locLang := js "zh";
  fallbackFlag := js "🏴‍☠️";
  removeRegionName := false;
  conflict := js mode;
  indexPad := Int 2;
  hashLen := Int 4;
  typeAbbr := typeAbbr_builtin;
  userRegions := []
|}.

Definition defaults : config := base_config [] false "index".

(** What the conflict callback makes of a node on its [count]-th
    occurrence, in the modes that keep it. *)
Definition resolve (cfg : config) (count : N) (p : obj) : obj :=
  if (count =? 1)%N then p
  else if str_eqb (conflict cfg) (js "hash") then
    set_field "name"
      (VStr (node_name p ++ js "-"
             ++ generateHash (hash_input p) (hashLen cfg))) p
  else
    set_field "name" (VStr (node_name p ++ js " " ++ index_suffix cfg count)) p.

End Configurations.

(** ** The address of a node as the specification words it

    The key [server:port:type]: the three texts joined by colons, the type
    read without regard to case; and the triple of the three texts
    itself. *)

Section Addresses.
Context `{rt : Runtime}.

Definition spec_addr_key (p : obj) : jsstring :=
  join (js ":")
    [safeStr (get p "server"); safeStr (get p "port");
     toUpperCase (safeStr (get p "type"))].

Definition addr_triple (p : obj) : jsstring * jsstring * jsstring :=
  (safeStr (get p "server"), safeStr (get p "port"),
   toUpperCase (safeStr (get p "type"))).

End Addresses.

(** Server and port hold no colon, as host names, IPv4 addresses and port
    numbers do not: the key then determines the triple. *)
Definition colon_free (p : obj) : Prop :=
  (58%N ∉ safeStr (get p "server")) ∧ (58%N ∉ safeStr (get p "port")).

(** ** Concrete inputs *)

Definition str (s : string) : value := VStr (js s).

Definition node (name type server : string) (port : Z) : obj :=
  [("name", str name); ("type", str type); ("server", str server);
   ("port", VNum port)].

Definition output_names (r : result (list obj)) : option (list jsstring) :=
  match r with
  | Ok out => Some (node_name <$> out)
  | Throw _ => None
  end.

(** [#addFlag=on&locLang=zh], the same with a prefix, and the script's
    own usage example [#name=MySub&addFlag=on&locLang=zh]. *)
Definition flag_args : gmap string jsstring :=
  {[ "addFlag" := js "on"; "locLang" := js "zh" ]}.

Definition flag_args_with (prefix : jsstring) : gmap string jsstring :=
  <["name" := prefix]> flag_args.

Definition flag_prefix_args : gmap string jsstring := flag_args_with (js "MySub").

Definition index_args : gmap string jsstring :=
  {[ "conflict" := js "index"; "indexPad" := js "2" ]}.

Definition dedupe_args : gmap string jsstring := {[ "dedupe" := js "addr" ]}.

Definition us_node : obj := node "US-LosAngeles-01" "vmess" "a.example" 443.

Definition hk_nodes : list obj :=
  [node "HK" "vmess" "a.example" 443; node "HK" "trojan" "b.example" 443;
   node "HK" "vless" "c.example" 8443].

Definition colliding_nodes : list obj :=
  [node "HK" "vmess" "a.example" 443; node "HK" "vmess" "b.example" 443;
   node "HK 02" "vmess" "c.example" 443].

(** Two nodes at one address whose types differ in case, and a third. *)
Definition mixed_case_nodes : list obj :=
  [node "A" "vmess" "a.example" 443; node "B" "VMESS" "a.example" 443;
   node "C" "vmess" "c.example" 443].

(** Five nodes on three addresses that differ in the port, in the type and
    in the server; the fourth repeats the address of the first, its type in
    another case. *)
Definition address_nodes : list obj :=
  [node "A" "vmess" "a.example" 443; node "B" "vmess" "a.example" 8443;
   node "C" "trojan" "a.example" 443; node "D" "VMESS" "a.example" 443;
   node "E" "vmess" "b.example" 443].

(** ** Shapes of texts *)

Definition is_surrogate (c : N) : bool :=
  is_high_surrogate c || is_low_surrogate c.

(** Well-formed UTF-16: every surrogate is half of a pair. *)
Fixpoint well_formed (s : jsstring) : bool :=
  match s with
  | [] => true
  | c :: rest =>
    if is_high_surrogate c then
      match rest with
      | d :: rest' => is_low_surrogate d && well_formed rest'
      | [] => false
      end
    else negb (is_low_surrogate c) && well_formed rest
  end.

(** A CJK character next to an ASCII letter or digit, in either order. *)
Definition boundary (a b : N) : bool :=
  (is_cjk a && is_alnum b) || (is_alnum a && is_cjk b).

Definition both_space (a b : N) : bool := is_space a && is_space b.

Definition non_space (c : N) : bool := negb (is_space c).

(** No two neighbours of [s] are related by [P]. *)
Definition no_neighbours (P : N → N → bool) (s : jsstring) : Prop :=
  ∀ l1 a b l2, s = l1 ++ a :: b :: l2 → P a b = false.

(** No whitespace at either end. *)
Definition trimmed (s : jsstring) : Prop :=
  (∀ c l, s = c :: l → is_space c = false)
  ∧ (∀ l c, s = l ++ [c] → is_space c = false).

(** A list item: not empty, free of the separators [+] and [,], and without
    whitespace at its ends. *)
Definition clean_token (t : jsstring) : Prop :=
  t ≠ [] ∧ Forall (λ c, is_list_sep c = false) t ∧ trimmed t.

(** A name without the characters [sanitizeChars] replaces. *)
Definition legal_name (s : jsstring) : Prop :=
  Forall (λ c, illegal_char c = false) s.

(** A digit of lowercase hexadecimal. *)
Definition is_lower_hex (c : N) : bool := is_digit c || in_range 97 102 c.

(** ** The options the script reads *)

Definition option_keys : list string :=
  ["name"; "subName"; "abbr"; "typeFmt"; "case"; "includeType"; "pos"; "sep";
   "template"; "keepUnknownType"; "map"; "removeEmoji"; "sanitize";
   "trimSpaces"; "maxLen"; "normalize"; "cjkSpace"; "include"; "exclude";
   "regexInclude"; "regexExclude"; "onlyTypes"; "dropTypes"; "dedupe";
   "sortBy"; "sortOrder"; "addFlag"; "locLang"; "regionMap"; "fallbackFlag";
   "removeRegionName"; "conflict"; "indexPad"; "hashLen"]%string.

(** The options whose text goes through [decodeURI] outside any [try]. *)
Definition decoded_keys : list string :=
  ["name"; "subName"; "sep"; "template"; "include"; "exclude"; "onlyTypes";
   "dropTypes"; "fallbackFlag"; "map"]%string.

Section MoreConfigurations.
Context `{rt : Runtime}.

(** [a] may stand before [b] in the sorted list. *)
Definition ordered (cfg : config) (a b : obj) : Prop :=
  (compare_nodes cfg a b ≤ 0)%Z.


(** Every option at its default, but for the template, the region and
    sanitize switches, the three lengths and the dedupe, sort and conflict
    modes. *)
Definition config_with (tmpl : jsstring) (strip clean : bool)
    (len pad hlen : number) (dd sb mode : string) : config := {|
  subName := [];
  useAbbr := true;
  typeFmt := js "bracket";
  typeCase := js "upper";
  sep := js " - ";
  includeType := true;
  pos := js "before";
  template := tmpl;
  keepUnknownType := js "short";
  enableRemoveEmoji := false;
  enableTrimSpaces := false;
  enableSanitize := clean;
  maxLen := len;
  enableNormalize := false;
  enableCjkSpace := false;
  include := [];
  exclude := [];
  rxInclude := None;
  rxExclude := None;
  onlyTypes := [];
  dropTypes := [];
  dedupe := js dd;
  sortBy := js sb;
  sortOrder := js "asc";
  addFlag := false;
  locLang := js "zh";
  fallbackFlag := js "🏴‍☠️";
  removeRegionName := strip;
  conflict := js mode;
  indexPad := pad;
  hashLen := hlen;
  typeAbbr := typeAbbr_builtin;
  userRegions := []
|}.

End MoreConfigurations.

(** ** More concrete inputs *)

Definition type_filter_args : gmap string jsstring :=
  {[ "onlyTypes" := js "vmess,trojan"; "dropTypes" := js "trojan" ]}.

Definition none_args : gmap string jsstring := {[ "conflict" := js "none" ]}.

(** Two nodes under one name that holds a slash. *)
Definition slash_nodes : list obj :=
  [node "a/b" "vmess" "a.example" 443; node "a/b" "trojan" "b.example" 443].

(** Three nodes, two of them under one name. *)
Definition repeated_nodes : list obj :=
  [node "B" "vmess" "a.example" 443; node "A" "trojan" "b.example" 443;
   node "B" "vless" "c.example" 8443].

(** ** Tactics *)

Create Rewrite HintDb options.

(** Option parsing at a given option map: resolve the lookups, then let the
    [options] rewrite rules evaluate the host's case mapping on literals. *)
Ltac eval_lookups :=
  repeat match goal with
  | |- context [ @lookup string jsstring _ _ ?k ?m ] =>
    let r := eval vm_compute in (@lookup string jsstring _ _ k m) in
    change (@lookup string jsstring _ _ k m) with r
  end.

Ltac eval_config :=
  unfold parseConfig; eval_lookups; autorewrite with options; try reflexivity.

(** * Evaluation of the building blocks *)

Example js_ascii : js "HK 02" = [72; 75; 32; 48; 50]%N.
Proof. reflexivity. Qed.

Example js_cjk : js "美国" = [32654; 22269]%N.
Proof. reflexivity. Qed.

Example js_flag : js "🇺🇸" = [55356; 56826; 55356; 56824]%N.
Proof. reflexivity. Qed.

Example decimal_12 : decimal 12%N = js "12".
Proof. reflexivity. Qed.

Example hexadecimal_48879 : hexadecimal 48879%N = js "beef".
Proof. reflexivity. Qed.

Example decodeURI_template :
  decodeURI (js "%7Bprefix%7D%20-%20%7Bname%7D%20%7Btype%7D")
  = Ok (js "{prefix} - {name} {type}").
Proof. reflexivity. Qed.

Example decodeURI_cjk : decodeURI (js "%E6%88%91%E7%9A%84") = Ok (js "我的").
Proof. reflexivity. Qed.

Example decodeURI_reserved : decodeURI (js "a%2Bb%20c") = Ok (js "a%2Bb c").
Proof. reflexivity. Qed.

Example decodeURI_lone_percent : decodeURI (js "100%") = Throw URIError.
Proof. reflexivity. Qed.

Example decodeURI_bad_utf8 : decodeURI (js "%C0%80") = Throw URIError.
Proof. reflexivity. Qed.

Example parseInt_px : parseInt (js " 12px") = Int 12%Z.
Proof. reflexivity. Qed.

Example parseInt_nan : parseInt (js "two") = NaN.
Proof. reflexivity. Qed.

Example trimSpaces_ex : trimSpaces (js "  a   b c  ") = js "a b c".
Proof. reflexivity. Qed.

Example addCjkSpaces_ex : addCjkSpaces (js "香港HK01节点") = js "香港 HK01 节点".
Proof. reflexivity. Qed.

Example truncateText_ex : truncateText (js "abcdef") 4%Z = js "abc…".
Proof. reflexivity. Qed.

(** 5381 * 33 + 97 = 177670 = 0x2b606. *)
Example generateHash_ex : generateHash (js "a") (Int 4%Z) = js "b606".
Proof. reflexivity. Qed.

Example replaceAll_ex :
  replaceAll (js "{name}") (js "HK") (js "{name} - {name}!") = js "HK - HK!".
Proof. reflexivity. Qed.

Example replaceAll_dollar :
  replaceAll (js "{prefix}") (js "$&$$") (js "a{prefix}b") = js "a{prefix}$b".
Proof. reflexivity. Qed.

Example rx_test_hk : regex_test (rx "Hong\s?Kong|\bHKG?\b|香港") (js "hk-01") = true.
Proof. reflexivity. Qed.

Example rx_test_boundary : regex_test (rx "\bUS\b") (js "RUSSIA") = false.
Proof. reflexivity. Qed.

Example rx_delete_ex :
  regex_delete (rx "Hong\s?Kong|\bHKG?\b|香港") (js "IEPL HongKong 01 HK")
  = js "IEPL  01 HK".
Proof. reflexivity. Qed.

(** ** The usage examples of the script's header, on the reference host *)

Example usage_prefix :
  output_names
    (operator {[ "name" := js "MySub" ]}
       (VArray [VObject (node "HK 01" "vmess" "a.example" 443)]))
  = Some [js "MySub - [VM] - HK 01"].
Proof. vm_compute. reflexivity. Qed.

Example usage_lower_paren :
  output_names
    (operator {[ "name" := js "MySub"; "case" := js "lower";
                 "typeFmt" := js "paren" ]}
       (VArray [VObject (node "HK 01" "vmess" "a.example" 443)]))
  = Some [js "MySub - (vm) - HK 01"].
Proof. vm_compute. reflexivity. Qed.

Example usage_template :
  output_names
    (operator {[ "name" := js "MySub";
                 "template" := js "%7Bprefix%7D%20-%20%7Bname%7D%20%7Btype%7D" ]}
       (VArray [VObject (node "HK 01" "vmess" "a.example" 443)]))
  = Some [js "MySub - HK 01 [VM]"].
Proof. vm_compute. reflexivity. Qed.

Example usage_only_types_dedupe :
  output_names
    (operator {[ "onlyTypes" := js "VMESS+VLESS"; "dedupe" := js "addr" ]}
       (VArray [VObject (node "n1" "vmess" "a.example" 443);
                VObject (node "n2" "trojan" "b.example" 443);
                VObject (node "n3" "vless" "a.example" 443);
                VObject (node "n4" "vmess" "a.example" 443)]))
  = Some [js "n1"; js "n3"].
Proof. vm_compute. reflexivity. Qed.

Example usage_strip_region :
  output_names
    (operator {[ "name" := js "X"; "addFlag" := js "on";
                 "removeRegionName" := js "true" ]}
       (VArray [VObject (node "香港 IEPL 01" "ss" "a.example" 443)]))
  = Some [js "🇭🇰 香港 - X - [SS] - IEPL 01"].
Proof. vm_compute. reflexivity. Qed.

Example usage_drop_and_hash :
  output_names
    (operator {[ "conflict" := js "drop" ]}
       (VArray (VObject <$> colliding_nodes)))
  = Some [js "HK"; js "HK 02"]
  ∧ output_names
      (operator {[ "conflict" := js "hash"; "hashLen" := js "two" ]}
         (VArray [VObject (node "a" "" "" 0); VObject (node "a" "" "" 0)]))
    = Some [js "a"; js "a-" ++ hexadecimal (Z.to_N (rolling_hash (js ":0::a")))].
Proof. split; vm_compute; reflexivity. Qed.

(** * Records *)

Lemma get_set_field_eq k v o : get (set_field k v o) k = v.
Proof.
  induction o as [|[k' v'] o IH]; simpl.
  - by rewrite String.eqb_refl.
  - destruct (String.eqb k' k) eqn:E; simpl; [by rewrite String.eqb_refl|].
    by rewrite E.
Qed.

Lemma get_set_field_ne k k' v o : k ≠ k' → get (set_field k v o) k' = get o k'.
Proof.
  intros Hne. induction o as [|[k0 v0] o IH]; simpl.
  - destruct (String.eqb k k') eqn:E; [|done].
    by apply String.eqb_eq in E.
  - destruct (String.eqb k0 k) eqn:E; simpl.
    + apply String.eqb_eq in E as ->.
      destruct (String.eqb k k') eqn:E'; [|done].
      by apply String.eqb_eq in E'.
    + by rewrite IH.
Qed.

Lemma set_field_twice k v1 v2 o :
  set_field k v2 (set_field k v1 o) = set_field k v2 o.
Proof.
  induction o as [|[k' v'] o IH]; simpl.
  - by rewrite String.eqb_refl.
  - destruct (String.eqb k' k) eqn:E; simpl.
    + by rewrite String.eqb_refl.
    + by rewrite E, IH.
Qed.

Lemma set_field_same k s o : get o k = VStr s → set_field k (VStr s) o = o.
Proof.
  induction o as [|[k' v'] o IH]; simpl; [done|].
  destruct (String.eqb k' k) eqn:E.
  - apply String.eqb_eq in E as ->. by intros ->.
  - intros Hg. by rewrite IH.
Qed.

Lemma set_field_keys k v o : k ∈ o.*1 → (set_field k v o).*1 = o.*1.
Proof.
  induction o as [|[k' v'] o IH]; simpl.
  - by intros ?%elem_of_nil.
  - destruct (String.eqb k' k) eqn:E; simpl.
    + apply String.eqb_eq in E as ->. done.
    + intros [->|Hin]%elem_of_cons; [by rewrite String.eqb_refl in E|].
      f_equal. by apply IH.
Qed.

Lemma node_name_set_field s o : node_name (set_field "name" (VStr s) o) = s.
Proof. unfold node_name. by rewrite get_set_field_eq. Qed.

Lemma set_name_same_but_name n p : same_but_name p (set_field "name" (VStr n) p).
Proof.
  split_and!.
  - by exists n.
  - intros k Hk. by apply get_set_field_ne.
  - apply set_field_keys.
Qed.

(** * Strings *)

Lemma decodeURI_truthy s decoded :
  decodeURI s = Ok decoded → truthy decoded = true → truthy s = true.
Proof. destruct s; [|done]. by intros [= <-]. Qed.

(** Text without a percent sign decodes to itself. *)
Lemma decodeURI_plain s : 37%N ∉ s → decodeURI s = Ok s.
Proof.
  induction s as [|c s IH]; [done|].
  intros [Hc Hs]%not_elem_of_cons. cbn [decodeURI].
  destruct (c =? 37)%N eqn:E; [by apply N.eqb_eq in E|].
  cbn [negb]. by rewrite IH.
Qed.

Lemma starts_with_app k r : starts_with k (k ++ r) = true.
Proof.
  induction k as [|c k IH]; [done|]. simpl. by rewrite N.eqb_refl.
Qed.

Lemma includes_prefix k r : includes (k ++ r) k = true.
Proof.
  pose proof (starts_with_app k r) as Hs.
  destruct (k ++ r); simpl; by rewrite Hs.
Qed.

Lemma padStart0_length w s :
  length (padStart0 w s) = Z.to_nat w `max` length s.
Proof. unfold padStart0. rewrite length_app, length_replicate. lia. Qed.

Lemma last_chars_drop n s : last_chars n s = drop (length s - n) s.
Proof. unfold last_chars. by rewrite firstn_rev, rev_involutive. Qed.

(** * The hash, modulo 2^32 *)

Lemma to_int32_mod z : (to_int32 z mod 4294967296 = z mod 4294967296)%Z.
Proof.
  unfold to_int32.
  rewrite Zminus_mod, Zmod_mod, <- Zminus_mod. f_equal. lia.
Qed.

Lemma hash_step_mod h c :
  (hash_step h c mod 4294967296 = (h * 33 + Z.of_N c) mod 4294967296)%Z.
Proof.
  unfold hash_step, shl32.
  rewrite Z.shiftl_mul_pow2 by lia.
  rewrite <- Z.add_assoc, Z.add_mod, to_int32_mod by lia.
  rewrite Z.mul_mod, to_int32_mod, <- Z.mul_mod by lia.
  rewrite <- Z.add_mod by lia. f_equal. lia.
Qed.

(** The running value of the loop and the reduced value of the
    specification stay congruent. *)
Lemma hash_loop_mod s h1 h2 :
  (h1 mod 4294967296 = h2 mod 4294967296)%Z →
  (fold_left hash_step s h1 mod 4294967296)%Z
  = fold_left (λ h c, (h * 33 + Z.of_N c) mod 2 ^ 32)%Z s (h2 mod 4294967296)%Z.
Proof.
  revert h1 h2. induction s as [|c s IH]; intros h1 h2 E; simpl.
  - by rewrite E.
  - change (2 ^ 32)%Z with 4294967296%Z in *.
    rewrite <- (Z.mod_mod (_ * 33 + _)%Z 4294967296) by lia.
    apply IH. rewrite hash_step_mod.
    rewrite Z.add_mod, Z.mul_mod, Z.mod_mod by lia.
    rewrite (Z.add_mod (h2 mod _ * 33)), (Z.mul_mod (h2 mod _)), !Z.mod_mod by lia.
    by rewrite E.
Qed.

Lemma hash_loop_rolling s : to_uint32 (hash_loop s) = rolling_hash s.
Proof.
  unfold to_uint32, hash_loop, rolling_hash.
  by rewrite (hash_loop_mod s 5381 5381).
Qed.

(** The loop stays inside the integers the host's numbers hold exactly:
    after [n] code units the running value is at most
    [5381 + n * (2^31 + 65535)] in absolute value, below [2^53] for any
    text of up to [2^21] code units. *)
Lemma hash_step_bound h c :
  (c < 65536)%N → (Z.abs (hash_step h c) ≤ Z.abs h + 2147549183)%Z.
Proof.
  intros Hc. unfold hash_step, shl32, to_int32.
  pose proof (Z.mod_pos_bound
    (Z.shiftl ((h + 2147483648) mod 4294967296 - 2147483648) 5 + 2147483648)
    4294967296 eq_refl).
  lia.
Qed.

Lemma hash_loop_bound s h :
  Forall (λ c, (c < 65536)%N) s →
  (Z.abs (fold_left hash_step s h) ≤ Z.abs h + Z.of_nat (length s) * 2147549183)%Z.
Proof.
  intros Hs. revert h. induction Hs as [|c s Hc _ IH]; intros h.
  - simpl. lia.
  - cbn [fold_left length]. specialize (IH (hash_step h c)).
    pose proof (hash_step_bound h c Hc). lia.
Qed.

Lemma hash_loop_exact s :
  Forall (λ c, (c < 65536)%N) s → (Z.of_nat (length s) ≤ 2097152)%Z →
  (Z.abs (hash_loop s) < 2 ^ 53)%Z.
Proof.
  intros Hs Hlen. pose proof (hash_loop_bound s 5381 Hs).
  unfold hash_loop. change (2 ^ 53)%Z with 9007199254740992%Z. lia.
Qed.

Lemma generateHash_nan s :
  generateHash s NaN = hexadecimal (Z.to_N (rolling_hash s)).
Proof. unfold generateHash. by rewrite hash_loop_rolling. Qed.

(** * Option parsing *)

Lemma bind_Ok {A B} (r : result A) (k : A → result B) b :
  r ≫= k = Ok b → ∃ a, r = Ok a ∧ k a = Ok b.
Proof. destruct r as [a|e]; [by exists a|done]. Qed.

Section OptionParsing.
Context `{rt : Runtime}.

Lemma keyword_ascii v d :
  forallb is_ascii (or_default v (js d)) = true →
  keyword v d = ascii_lower <$> or_default v (js d).
Proof. intros Hs. unfold keyword. by apply toLowerCase_ascii. Qed.

(** On ASCII text every host reads a switch like the reference host. *)
Lemma parseBool_ascii v d :
  forallb is_ascii v = true →
  parseBool (Some v) d = parseBool (rt := reference_runtime) (Some v) d.
Proof. intros Hs. unfold parseBool. by rewrite toLowerCase_ascii. Qed.

(** The keyword options are read from the map alone. *)
Lemma parseConfig_keywords args cfg :
  parseConfig args = Ok cfg →
  dedupe cfg = keyword (args !! "dedupe") ""
  ∧ sortBy cfg = keyword (args !! "sortBy") ""
  ∧ conflict cfg = keyword (args !! "conflict") "index"
  ∧ indexPad cfg = int_or (args !! "indexPad") 2
  ∧ hashLen cfg = int_or (args !! "hashLen") 4.
Proof.
  unfold parseConfig. intros H.
  repeat (apply bind_Ok in H as (? & _ & H)).
  injection H as <-. done.
Qed.

Lemma decoded_or_plain v d :
  (∀ s, v = Some s → 37%N ∉ s) → ∃ r, decoded_or v d = Ok r.
Proof.
  intros Hv. destruct v as [s|]; simpl; [|by eauto].
  destruct (truthy s); [|by eauto]. rewrite decodeURI_plain by auto. eauto.
Qed.

Lemma parseList_plain v :
  (∀ s, v = Some s → 37%N ∉ s) → ∃ r, parseList v = Ok r.
Proof.
  intros Hv. destruct v as [s|]; simpl; [|by eauto].
  destruct (truthy s); [|by eauto]. rewrite decodeURI_plain by auto.
  simpl. eauto.
Qed.

(** Where the call can raise at all: an option map without a percent sign
    in any value and without [regionMap] always parses, whatever else it
    holds (switches that are not switches, lengths that are not numbers,
    patterns [regexInclude] cannot compile). *)
Lemma parseConfig_plain args :
  (∀ k s, args !! k = Some s → 37%N ∉ s) →
  args !! "regionMap" = None →
  ∃ cfg, parseConfig args = Ok cfg.
Proof.
  intros Hplain Hno. unfold parseConfig. rewrite Hno.
  assert (∃ r, match args !! "name" with
               | Some v => if truthy v then decodeURI v
                           else decoded_or (args !! "subName") []
               | None => decoded_or (args !! "subName") []
               end = Ok r) as [? ->].
  { destruct (args !! "name") as [v|] eqn:E;
      [destruct (truthy v);
       [rewrite decodeURI_plain by eauto; eauto|]|];
      apply decoded_or_plain; eauto. }
  assert (∃ r, match args !! "sep" with
               | Some v => decodeURI v
               | None => Ok (js " - ")
               end = Ok r) as [? ->].
  { destruct (args !! "sep") as [v|] eqn:E; [|by eauto].
    rewrite decodeURI_plain by eauto. eauto. }
  destruct (decoded_or_plain (args !! "template") [] (Hplain _)) as [? ->].
  destruct (parseList_plain (args !! "include") (Hplain _)) as [? ->].
  destruct (parseList_plain (args !! "exclude") (Hplain _)) as [? ->].
  destruct (parseList_plain (args !! "onlyTypes") (Hplain _)) as [? ->].
  destruct (parseList_plain (args !! "dropTypes") (Hplain _)) as [? ->].
  destruct (decoded_or_plain (args !! "fallbackFlag") (js "🏴‍☠️") (Hplain _))
    as [? ->].
  destruct (parseList_plain (args !! "map") (Hplain _)) as [? ->].
  cbn [mbind result_bind parseList userRegions_of]. eauto.
Qed.

(** The sibling of the prefix: the same malformed text reaches
    [decodeURI] inside [try], and the feature is switched off. *)
Lemma toRegex_malformed : toRegex (Some (js "%")) = None.
Proof. reflexivity. Qed.

End OptionParsing.

#[export] Hint Rewrite @keyword_ascii using reflexivity : options.
#[export] Hint Rewrite @parseBool_ascii using reflexivity : options.

Section ResolvedOptions.
Context `{rt : Runtime}.

Lemma parseConfig_empty : parseConfig ∅ = Ok defaults.
Proof. eval_config. Qed.

Lemma parseConfig_index : parseConfig index_args = Ok defaults.
Proof. eval_config. Qed.

Lemma parseConfig_conflict_index :
  parseConfig {[ "conflict" := js "index" ]} = Ok defaults.
Proof. eval_config. Qed.

Lemma parseConfig_flag_prefix prefix decoded :
  truthy prefix = true →
  decodeURI prefix = Ok decoded →
  parseConfig (flag_args_with prefix) = Ok (base_config decoded true "index").
Proof.
  intros Ht Hd. unfold parseConfig, flag_args_with. eval_lookups.
  cbv beta iota. rewrite Ht, Hd. autorewrite with options. reflexivity.
Qed.

Lemma keyword_addr args cfg :
  parseConfig args = Ok cfg →
  args !! "dedupe" = Some (js "addr") →
  dedupe cfg = js "addr".
Proof.
  intros (-> & _)%parseConfig_keywords ->.
  by rewrite keyword_ascii.
Qed.

(** A pattern of [regionMap] the engine rejects ends the call. *)
Lemma regionMap_rejected proxies :
  RegExp_new (js "(") = None →
  operator {[ "regionMap" := js "(" ]} proxies = Throw SyntaxError.
Proof.
  intros Hbad. change (js "(") with [40%N] in Hbad.
  unfold operator, parseConfig. eval_lookups.
  change (parseList (Some [40%N])) with (Ok [[40%N]] : result (list jsstring)).
  cbn. by rewrite Hbad.
Qed.

End ResolvedOptions.

(** * The stages *)

Lemma filter_all {A} (P : A → Prop) `{∀ x, Decision (P x)} (l : list A) :
  (∀ x, P x) → filter P l = l.
Proof.
  intros HP. induction l as [|x l IH]; [done|].
  by rewrite filter_cons, decide_True, IH.
Qed.

Lemma Forall2_elem_r {A B} (R : A → B → Prop) l1 l2 y :
  Forall2 R l1 l2 → y ∈ l2 → ∃ x, x ∈ l1 ∧ R x y.
Proof.
  induction 1 as [|a b l1 l2 Hab _ IH]; [by intros ?%elem_of_nil|].
  intros [->|Hy]%elem_of_cons.
  - exists a. split; [left|done].
  - destruct (IH Hy) as (x & ? & ?). exists x. split; [by right|done].
Qed.

Lemma fresh_of_NoDup {A B} (f : A → B) (l : list A) i x :
  NoDup (f <$> l) → l !! i = Some x → f x ∉ f <$> take i l.
Proof.
  intros Hnd Hi (j & Hj)%list_elem_of_lookup.
  rewrite fmap_take in Hj.
  apply lookup_take_Some in Hj as [Hj Hlt].
  assert (i = j); [|lia].
  eapply NoDup_lookup; [exact Hnd| |exact Hj].
  by rewrite list_lookup_fmap, Hi.
Qed.

Lemma occurrences_0 name l :
  name ∉ node_name <$> l → occurrences name l = 0%N.
Proof.
  intros Hn. unfold occurrences.
  induction l as [|p l IH]; [done|].
  rewrite fmap_cons, not_elem_of_cons in Hn. destruct Hn as [Hne Hn].
  rewrite filter_cons, decide_False by done. by apply IH.
Qed.

Lemma occurrences_pos name l :
  name ∈ node_name <$> l → occurrences name l ≠ 0%N.
Proof.
  unfold occurrences. induction l as [|p l IH]; [by intros ?%elem_of_nil|].
  rewrite fmap_cons, filter_cons. intros [->|Hin]%elem_of_cons.
  - rewrite decide_True by done. simpl. lia.
  - destruct (decide _); [simpl; lia|by apply IH].
Qed.

(** ** First-wins *)

Lemma first_per_key_sublist {A K} `{EqDecision K} (key : A → K) earlier l :
  first_per_key key earlier l `sublist_of` l.
Proof.
  revert earlier. induction l as [|x l IH]; intros earlier; simpl; [done|].
  destruct (decide _); simpl.
  - by apply sublist_cons.
  - by apply sublist_skip.
Qed.

Lemma first_per_key_fresh {A K} `{EqDecision K} (key : A → K) earlier l x :
  x ∈ first_per_key key earlier l → key x ∉ earlier.
Proof.
  revert earlier. induction l as [|y l IH]; intros earlier; simpl.
  - by intros ?%elem_of_nil.
  - intros [Hx|Hx]%elem_of_app.
    + destruct (decide _) as [|Hy]; [by apply elem_of_nil in Hx|].
      by apply list_elem_of_singleton in Hx as ->.
    + apply IH in Hx. intros Hin. apply Hx, elem_of_app. by left.
Qed.

Lemma first_per_key_NoDup {A K} `{EqDecision K} (key : A → K) earlier l :
  NoDup (key <$> first_per_key key earlier l).
Proof.
  revert earlier. induction l as [|x l IH]; intros earlier; simpl.
  - constructor.
  - destruct (decide _); simpl; [apply IH|].
    constructor; [|apply IH].
    intros (y & Hk & Hy)%list_elem_of_fmap.
    apply first_per_key_fresh in Hy. apply Hy, elem_of_app. right.
    rewrite Hk. by apply list_elem_of_singleton.
Qed.

Section Stages.
Context `{rt : Runtime}.
Variable cfg : config.

Lemma node_type_set_name v p : node_type (set_field "name" v p) = node_type p.
Proof. unfold node_type. by rewrite get_set_field_ne. Qed.

Lemma addr_of_set_name v p : addr_of (set_field "name" v p) = addr_of p.
Proof.
  unfold addr_of. by rewrite node_type_set_name, !get_set_field_ne.
Qed.

Lemma renamed_addr_of p q : renamed p q → addr_of q = addr_of p.
Proof. intros [|n]; [done|apply addr_of_set_name]. Qed.

Lemma Forall2_renamed_addr l l' :
  Forall2 renamed l l' → addr_of <$> l' = addr_of <$> l.
Proof.
  induction 1 as [|p q l l' Hr _ IH]; [done|].
  rewrite !fmap_cons. f_equal; [by apply renamed_addr_of|done].
Qed.

(** ** Sanitize *)

Lemma sanitize_records (l : list obj) : sanitize (VArray (VObject <$> l)) = l.
Proof.
  unfold sanitize. induction l as [|p l IH]; [done|].
  rewrite fmap_cons. cbn [omap list_omap fields_of]. by rewrite IH.
Qed.

Lemma sanitize_elem vs p :
  p ∈ sanitize (VArray vs) → ∃ v, v ∈ vs ∧ fields_of v = Some p.
Proof. unfold sanitize. by rewrite list_elem_of_omap. Qed.

Lemma sanitize_not_array proxies :
  (∀ l, proxies ≠ VArray l) → sanitize proxies = [].
Proof. intros Hna. destruct proxies; try done. by destruct (Hna l). Qed.

(** ** Dedupe *)

Lemma dedupe_loop_sublist seen l : dedupe_loop cfg seen l `sublist_of` l.
Proof.
  revert seen. induction l as [|p l IH]; intros seen; [done|].
  cbn [dedupe_loop]. destruct (dedupe_key cfg p).
  - destruct (bool_decide _); [by apply sublist_cons|by apply sublist_skip].
  - by apply sublist_skip.
Qed.

Lemma dedupe_stage_sublist l : dedupe_stage cfg l `sublist_of` l.
Proof.
  unfold dedupe_stage. destruct (truthy _); [apply dedupe_loop_sublist|done].
Qed.

Section Addr.
Hypothesis Haddr : dedupe cfg = js "addr".

Lemma dedupe_key_addr p : dedupe_key cfg p = Some (js "A|" ++ addr_of p).
Proof. unfold dedupe_key. by rewrite Haddr. Qed.

(** The [seen] set and the keys of the nodes passed so far agree. *)
Lemma dedupe_loop_first_per_key seen earlier l :
  (∀ a, js "A|" ++ a ∈ seen ↔ a ∈ earlier) →
  dedupe_loop cfg seen l = first_per_key addr_of earlier l.
Proof.
  revert seen earlier. induction l as [|p l IH]; intros seen earlier Hs; [done|].
  cbn [dedupe_loop first_per_key]. rewrite dedupe_key_addr.
  destruct (decide (addr_of p ∈ earlier)) as [Hin|Hin].
  - rewrite bool_decide_eq_true_2 by by apply Hs.
    simpl. apply IH. intros a. rewrite Hs, elem_of_app, list_elem_of_singleton.
    split; [by left|]. by intros [?| ->].
  - rewrite bool_decide_eq_false_2 by by rewrite Hs.
    simpl. f_equal. apply IH. intros a.
    rewrite elem_of_union, elem_of_singleton, Hs, elem_of_app, list_elem_of_singleton.
    split.
    + intros [E|?]; [right|by left]. by apply (inj (app (js "A|"))) in E.
    + intros [?| ->]; [by right|by left].
Qed.

Lemma dedupe_stage_first_per_key l :
  dedupe_stage cfg l = first_per_key addr_of [] l.
Proof.
  unfold dedupe_stage. rewrite Haddr.
  change (truthy (js "addr")) with true. cbv iota.
  apply dedupe_loop_first_per_key. intros a.
  split; [by intros ?%not_elem_of_empty | by intros ?%elem_of_nil].
Qed.

End Addr.

(** ** Rename *)

Lemma addr_of_processName p : addr_of (processName cfg p) = addr_of p.
Proof. apply addr_of_set_name. Qed.

(** ** Sort *)

Lemma insert_sorted_perm x l : insert_sorted cfg x l ≡ₚ x :: l.
Proof.
  induction l as [|y l IH]; simpl; [done|].
  destruct (_ <=? _)%Z; [done|].
  rewrite IH. apply Permutation_swap.
Qed.

Lemma sort_stage_perm l : sort_stage cfg l ≡ₚ l.
Proof.
  unfold sort_stage. destruct (truthy _); [|done].
  induction l as [|x l IH]; simpl; [done|].
  by rewrite insert_sorted_perm, IH.
Qed.

(** ** Conflict resolution *)

Lemma conflict_loop_cons m p l :
  str_eqb (conflict cfg) (js "drop") = false →
  conflict_loop cfg m (p :: l)
  = resolve cfg (default 0%N (m !! node_name p) + 1) p
    :: conflict_loop cfg
         (<[node_name p := (default 0%N (m !! node_name p) + 1)%N]> m) l.
Proof.
  intros Hd. cbn [conflict_loop]. rewrite Hd. unfold resolve.
  destruct (_ =? 1)%N; [done|]. by destruct (str_eqb _ (js "hash")).
Qed.

(** The counter a node meets is the number of earlier nodes of its name,
    on top of what the map held at the start. *)
Lemma conflict_loop_lookup m l i p :
  str_eqb (conflict cfg) (js "drop") = false →
  l !! i = Some p →
  conflict_loop cfg m l !! i
  = Some (resolve cfg
            (default 0%N (m !! node_name p)
             + occurrences (node_name p) (take i l) + 1) p).
Proof.
  intros Hd. revert m i. induction l as [|p0 l IH]; intros m i Hi; [done|].
  rewrite conflict_loop_cons by done.
  destruct i as [|i]; simpl in Hi.
  - injection Hi as ->. cbn [lookup list_lookup take]. do 2 f_equal.
    unfold occurrences. rewrite filter_nil. simpl.
    generalize (default 0%N (m !! node_name p)). lia.
  - cbn [lookup list_lookup]. rewrite (IH _ _ Hi). do 2 f_equal.
    unfold occurrences. cbn [take]. rewrite filter_cons.
    destruct (decide (node_name p0 = node_name p)) as [E|E].
    + rewrite E, lookup_insert_eq. cbn [length default from_option id].
      generalize (default 0%N (m !! node_name p)). lia.
    + rewrite lookup_insert_ne by done.
      generalize (default 0%N (m !! node_name p)). lia.
Qed.

Lemma conflict_loop_length m l :
  str_eqb (conflict cfg) (js "drop") = false →
  length (conflict_loop cfg m l) = length l.
Proof.
  intros Hd. revert m. induction l as [|p0 l IH]; intros m; [done|].
  rewrite conflict_loop_cons by done. simpl. by rewrite IH.
Qed.

(** In every mode the stage only drops nodes or changes names. *)
Lemma conflict_loop_renamed m l :
  ∃ l', l' `sublist_of` l ∧ Forall2 renamed l' (conflict_loop cfg m l).
Proof.
  revert m. induction l as [|p l IH]; intros m.
  - exists []. split; [done|constructor].
  - cbn [conflict_loop].
    set (m' := <[_ := _]> m). destruct (IH m') as (l' & Hsub & Hall).
    destruct (_ =? 1)%N.
    { exists (p :: l'). split; [by apply sublist_skip|].
      constructor; [constructor|done]. }
    destruct (str_eqb _ (js "drop")).
    { exists l'. split; [by apply sublist_cons|done]. }
    destruct (str_eqb _ (js "hash")).
    all: exists (p :: l'); split; [by apply sublist_skip|];
      constructor; [constructor|done].
Qed.

Lemma conflict_stage_renamed l :
  ∃ l', l' `sublist_of` l ∧ Forall2 renamed l' (conflict_stage cfg l).
Proof.
  unfold conflict_stage. destruct (str_eqb _ _).
  - exists l. split; [done|]. induction l; constructor; [constructor|done].
  - apply conflict_loop_renamed.
Qed.

(** ** The whole run *)

Lemma run_not_array proxies : (∀ l, proxies ≠ VArray l) → run cfg proxies = [].
Proof.
  intros Hna. unfold run. rewrite sanitize_not_array, filter_nil by done.
  unfold dedupe_stage, sort_stage, conflict_stage.
  by repeat destruct (_ : bool).
Qed.

Lemma run_elem vs q :
  q ∈ run cfg (VArray vs) →
  ∃ v p n, v ∈ vs ∧ fields_of v = Some p ∧ q = set_field "name" (VStr n) p.
Proof.
  unfold run. intros Hq.
  destruct (conflict_stage_renamed
    (sort_stage cfg (processName cfg <$>
       dedupe_stage cfg (filter (λ p, keep cfg p = true) (sanitize (VArray vs))))))
    as (l' & Hsub & Hall).
  destruct (Forall2_elem_r _ _ _ _ Hall Hq) as (p1 & Hp1 & Hr).
  apply (sublist_subseteq _ _ Hsub) in Hp1.
  rewrite sort_stage_perm in Hp1.
  apply list_elem_of_fmap in Hp1 as (p & -> & Hp).
  apply (sublist_subseteq _ _ (dedupe_stage_sublist _)) in Hp.
  apply list_elem_of_filter in Hp as [_ Hp].
  apply sanitize_elem in Hp as (v & Hv & Hf).
  exists v, p. unfold processName in Hr.
  destruct Hr as [|n]; [by eauto|].
  rewrite set_field_twice. by eauto.
Qed.

Lemma run_addr_NoDup proxies :
  dedupe cfg = js "addr" → NoDup (addr_of <$> run cfg proxies).
Proof.
  intros Haddr. unfold run.
  set (F := filter _ (sanitize proxies)).
  destruct (conflict_stage_renamed
    (sort_stage cfg (processName cfg <$> dedupe_stage cfg F)))
    as (l' & Hsub & Hall).
  rewrite (Forall2_renamed_addr _ _ Hall).
  eapply sublist_NoDup; [|exact (fmap_sublist addr_of _ _ Hsub)].
  rewrite sort_stage_perm, <- list_fmap_compose.
  rewrite (list_fmap_ext _ addr_of _ (λ _ p _, addr_of_processName p)).
  rewrite dedupe_stage_first_per_key by done.
  apply first_per_key_NoDup.
Qed.

Lemma run_single (p : obj) :
  keep cfg p = true → dedupe cfg = [] → sortBy cfg = [] →
  run cfg (VArray [VObject p]) = [processName cfg p].
Proof.
  intros Hk Hd Hs. unfold run.
  change (sanitize (VArray [VObject p])) with [p].
  rewrite filter_cons, decide_True, filter_nil by done.
  unfold dedupe_stage, sort_stage, conflict_stage. rewrite Hd, Hs.
  cbn [truthy fmap list_fmap].
  destruct (str_eqb _ _); [done|].
  cbn [conflict_loop]. rewrite lookup_empty. done.
Qed.

End Stages.

(** ** Under the default options *)

Section Defaults.
Context `{rt : Runtime}.

Lemma processName_defaults p : has_name p → processName defaults p = p.
Proof.
  intros [n Hn]. unfold processName.
  assert (new_name defaults p = n) as ->; [|by apply set_field_same].
  unfold new_name, node_name. rewrite Hn. cbn [safeStr to_string].
  reflexivity.
Qed.

Lemma rename_defaults l : Forall has_name l → processName defaults <$> l = l.
Proof.
  induction 1 as [|p l Hp _ IH]; [done|].
  by rewrite fmap_cons, processName_defaults, IH.
Qed.

Lemma run_defaults (l : list obj) :
  Forall has_name l →
  run defaults (VArray (VObject <$> l)) = conflict_loop defaults ∅ l.
Proof.
  intros Hl. unfold run. rewrite sanitize_records.
  rewrite filter_all by done.
  change (dedupe_stage defaults l) with l.
  by rewrite rename_defaults.
Qed.

End Defaults.

(** ** Deduplication by address, on the fields *)

Lemma app_colon_inj (a b x y : jsstring) :
  58%N ∉ a → 58%N ∉ b → a ++ 58%N :: x = b ++ 58%N :: y → a = b ∧ x = y.
Proof.
  revert b. induction a as [|c a IH]; intros [|d b] Ha Hb E; simpl in E.
  - by injection E as ->.
  - injection E as <- _. by apply not_elem_of_cons in Hb as [? _].
  - injection E as -> _. by apply not_elem_of_cons in Ha as [? _].
  - injection E as -> E.
    apply not_elem_of_cons in Ha as [_ Ha]. apply not_elem_of_cons in Hb as [_ Hb].
    by destruct (IH b Ha Hb E) as [-> ->].
Qed.

Lemma first_per_key_change_key {A K1 K2} `{EqDecision K1, EqDecision K2}
    (P : A → Prop) (f : A → K1) (g : A → K2) (pre l : list A) :
  (∀ x y, P x → P y → f x = f y ↔ g x = g y) →
  Forall P pre → Forall P l →
  first_per_key f (f <$> pre) l = first_per_key g (g <$> pre) l.
Proof.
  intros Hfg Hpre Hl. revert pre Hpre.
  induction Hl as [|x l Hx _ IH]; intros pre Hpre; [done|].
  cbn [first_per_key].
  assert (f x ∈ f <$> pre ↔ g x ∈ g <$> pre) as Hin.
  { rewrite !list_elem_of_fmap. split; intros (y & E & Hy); exists y;
      (split; [|done]);
      apply (Hfg x y Hx (proj1 (Forall_forall _ _) Hpre y Hy)); done. }
  assert (first_per_key f ((f <$> pre) ++ [f x]) l
          = first_per_key g ((g <$> pre) ++ [g x]) l) as ->.
  { change [f x] with (f <$> [x]). change [g x] with (g <$> [x]).
    rewrite <- !fmap_app. apply IH, Forall_app. by split; [|constructor]. }
  destruct (decide (f x ∈ f <$> pre)) as [H1|H1];
    destruct (decide (g x ∈ g <$> pre)) as [H2|H2]; try done; tauto.
Qed.

Lemma first_per_key_keeps {A K} `{EqDecision K} (key : A → K) earlier l i x :
  l !! i = Some x → key x ∉ earlier → key x ∉ key <$> take i l →
  x ∈ first_per_key key earlier l.
Proof.
  revert earlier i. induction l as [|y l IH]; intros earlier i Hi He Ht; [done|].
  cbn [first_per_key]. destruct i as [|i]; simpl in Hi.
  - injection Hi as ->. rewrite decide_False by done. by left.
  - apply elem_of_app. right. cbn [take] in Ht. rewrite fmap_cons in Ht.
    apply not_elem_of_cons in Ht as [Hne Ht].
    apply (IH _ i); [done| |done].
    rewrite elem_of_app, list_elem_of_singleton. tauto.
Qed.

Section AddressFields.
Context `{rt : Runtime}.

Lemma addr_of_spec_key p : addr_of p = spec_addr_key p.
Proof. reflexivity. Qed.

Lemma addr_of_triple p :
  addr_of p
  = (λ '(s, o, t), s ++ js ":" ++ o ++ js ":" ++ t) (addr_triple p).
Proof. reflexivity. Qed.

(** Without a colon in server and port, two nodes have the same key exactly
    when they agree on the three texts. *)
Lemma addr_of_eq_triple p q :
  colon_free p → colon_free q →
  addr_of p = addr_of q ↔ addr_triple p = addr_triple q.
Proof.
  intros [Hs Hp] [Hs' Hp']. split.
  - unfold addr_of, addr_triple, node_type.
    change (js ":") with [58%N]. cbn [app]. intros E.
    apply app_colon_inj in E as [-> E]; [|done..].
    by apply app_colon_inj in E as [-> ->].
  - intros E. by rewrite !addr_of_triple, E.
Qed.

Lemma NoDup_addr_triple (l : list obj) :
  NoDup (addr_of <$> l) → NoDup (addr_triple <$> l).
Proof.
  intros H.
  assert (addr_of <$> l
          = (λ '(s, o, t), s ++ js ":" ++ o ++ js ":" ++ t)
            <$> (addr_triple <$> l)) as E.
  { rewrite <- list_fmap_compose. apply list_fmap_ext.
    intros i p _. apply addr_of_triple. }
  rewrite E in H. by apply NoDup_fmap_1 in H.
Qed.

Lemma conflict_loop_distinct cfg l :
  str_eqb (conflict cfg) (js "drop") = false →
  NoDup (node_name <$> l) → conflict_loop cfg ∅ l = l.
Proof.
  intros Hd Hnd. apply list_eq. intros i.
  destruct (l !! i) as [p|] eqn:Hi.
  - rewrite (conflict_loop_lookup cfg ∅ l i p Hd Hi).
    rewrite lookup_empty, occurrences_0 by by apply fresh_of_NoDup. done.
  - apply lookup_ge_None. rewrite conflict_loop_length by done.
    by apply lookup_ge_None.
Qed.

Lemma processName_config_with pad hlen dd sb mode p :
  has_name p →
  processName (config_with [] false false (Int 0) pad hlen dd sb mode) p = p.
Proof.
  intros [n Hn]. unfold processName.
  assert (new_name (config_with [] false false (Int 0) pad hlen dd sb mode) p = n)
    as ->; [|by apply set_field_same].
  unfold new_name, node_name. rewrite Hn. cbn [safeStr to_string].
  reflexivity.
Qed.

Lemma parseConfig_dedupe_addr :
  parseConfig dedupe_args
  = Ok (config_with [] false false (Int 0) (Int 2) (Int 4) "addr" "" "index").
Proof. eval_config. Qed.

End AddressFields.

(** * The claims *)

(** ** C1: malformed options

    C1 states that no option map of strings makes the call raise.  The
    script does not keep to it: the prefix is decoded outside any [try], so
    a [%] that is not followed by two hexadecimal digits ends the call with
    a [URIError], whatever the node list (compare [toRegex_malformed], where
    the same text is caught, and [regionMap_rejected] for the second
    uncaught path). *)
Theorem malformed_prefix_throws `{rt : Runtime} (proxies : value) :
  operator {[ "name" := js "%" ]} proxies = Throw URIError.
Proof. unfold operator, parseConfig. eval_lookups. reflexivity. Qed.

(** ** C2: the region segment *)

(** C2 as stated fails: with [addFlag=on], [locLang=zh] and no prefix or
    template, the node named [US-LosAngeles-01] leaves the call under its
    own name, which does not contain the region segment. *)
Lemma flag_without_prefix_keeps_name :
  operator (rt := reference_runtime) flag_args (VArray [VObject us_node])
  = Ok [us_node]
  ∧ includes (node_name us_node) (js "🇺🇸 美国") = false.
Proof. split; vm_compute; reflexivity. Qed.

(** C2, amended: with [addFlag=on], [locLang=zh] and a prefix configured
    (a non-empty [name] after decoding, as in the script's own usage
    example; no template, other options at their defaults), a node named
    [US-LosAngeles-01] gets a name whose parts, joined by the separator,
    start with the region segment [🇺🇸 美国] and the prefix; its other
    fields are unchanged. *)
Theorem flag_with_prefix_names_region `{rt : Runtime}
    (prefix decoded : jsstring) (p : obj) :
  decodeURI prefix = Ok decoded →
  truthy decoded = true →
  get p "name" = str "US-LosAngeles-01" →
  ∃ q tail,
    operator (flag_args_with prefix) (VArray [VObject p]) = Ok [q]
    ∧ node_name q = join (js " - ") (js "🇺🇸 美国" :: decoded :: tail)
    ∧ includes (node_name q) (js "🇺🇸 美国") = true
    ∧ ∀ k, k ≠ "name" → get q k = get p k.
Proof.
  intros Hd Ht Hn.
  set (cfg := base_config decoded true "index").
  set (T := buildTypeDisplay cfg (toUpperCase (safeStr (get p "type")))).
  assert (new_name cfg p
          = join (js " - ")
              (js "🇺🇸 美国" :: decoded
               :: (if truthy T then [T] else []) ++ [js "US-LosAngeles-01"]))
    as Hname.
  { unfold new_name. rewrite Hn. fold T.
    change (safeStr (str "US-LosAngeles-01")) with (js "US-LosAngeles-01").
    assert (buildRegionStr cfg (js "US-LosAngeles-01") = js "🇺🇸 美国") as ->
      by (vm_compute; reflexivity).
    unfold shouldFormat, finish_name, name_parts, cleanRegionFromName.
    cbn [subName template includeType addFlag removeRegionName cfg base_config
         enableRemoveEmoji enableSanitize enableTrimSpaces enableNormalize
         enableCjkSpace maxLen sep pos negb orb].
    rewrite Ht. reflexivity. }
  exists (processName cfg p),
    ((if truthy T then [T] else []) ++ [js "US-LosAngeles-01"]).
  unfold operator.
  rewrite (parseConfig_flag_prefix prefix decoded)
    by (by apply (decodeURI_truthy prefix decoded) || done).
  cbn [mbind result_bind].
  rewrite run_single by done.
  unfold processName. fold cfg. rewrite node_name_set_field, Hname.
  split_and!; [done|done| |].
  - cbn [join]. apply (includes_prefix (js "🇺🇸 美国")).
  - intros k Hk. by apply get_set_field_ne.
Qed.

Lemma flag_with_prefix_names_region_witness :
  decodeURI (js "MySub") = Ok (js "MySub")
  ∧ get us_node "name" = str "US-LosAngeles-01"
  ∧ output_names
      (operator (rt := reference_runtime) flag_prefix_args
         (VArray [VObject us_node]))
    = Some [js "🇺🇸 美国 - MySub - [VM] - US-LosAngeles-01"].
Proof.
  split_and!; [reflexivity|reflexivity|].
  destruct (flag_with_prefix_names_region (rt := reference_runtime)
              (js "MySub") (js "MySub") us_node eq_refl eq_refl eq_refl)
    as (q & tail & Hq & _).
  unfold flag_prefix_args. rewrite Hq. vm_compute in Hq.
  injection Hq as <-. vm_compute. reflexivity.
Defined.

(** ** C3: passthrough *)

(** C3 as stated fails: under the default options two nodes named [HK]
    come out as [HK] and [HK 02]. *)
Lemma default_options_number_duplicates :
  output_names
    (operator (rt := reference_runtime) ∅
       (VArray [VObject (node "HK" "vmess" "a.example" 443);
                VObject (node "HK" "vmess" "b.example" 443)]))
  = Some [js "HK"; js "HK 02"]
  ∧ [js "HK"; js "HK 02"] ≠ [js "HK"; js "HK"].
Proof. split; [vm_compute; reflexivity|discriminate]. Qed.

(** C3, amended: when the options resolve to the defaults (no prefix, no
    template, type display on, flags off), the rename stage returns every
    record unchanged; the call returns as many nodes as it was given, a
    node whose name has not occurred earlier in the list is returned
    unchanged, and a list of pairwise distinct names is returned as it
    is. *)
Theorem default_options_passthrough `{rt : Runtime}
    (args : gmap string jsstring) (l : list obj) :
  parseConfig args = Ok defaults →
  Forall has_name l →
  processName defaults <$> l = l
  ∧ ∃ out, operator args (VArray (VObject <$> l)) = Ok out
      ∧ length out = length l
      ∧ (∀ i p, l !! i = Some p →
           node_name p ∉ node_name <$> take i l → out !! i = Some p)
      ∧ (NoDup (node_name <$> l) → out = l).
Proof.
  intros Hc Hl. split; [by apply rename_defaults|].
  assert (∀ i p, l !! i = Some p →
    node_name p ∉ node_name <$> take i l →
    conflict_loop defaults ∅ l !! i = Some p) as Hfirst.
  { intros i p Hi Hfresh.
    rewrite (conflict_loop_lookup defaults ∅ l i p eq_refl Hi).
    by rewrite lookup_empty, occurrences_0. }
  exists (conflict_loop defaults ∅ l). unfold operator. rewrite Hc. simpl.
  rewrite run_defaults by done.
  split_and!; [done|by apply conflict_loop_length|done|].
  intros Hnd. apply list_eq. intros i.
  destruct (l !! i) as [p|] eqn:Hi.
  - apply Hfirst; [done|]. by apply fresh_of_NoDup.
  - apply lookup_ge_None. rewrite conflict_loop_length by done.
    by apply lookup_ge_None.
Qed.

Lemma default_options_passthrough_witness :
  parseConfig (rt := reference_runtime) ∅ = Ok defaults
  ∧ Forall has_name mixed_case_nodes
  ∧ operator (rt := reference_runtime) ∅ (VArray (VObject <$> mixed_case_nodes))
    = Ok mixed_case_nodes.
Proof.
  assert (parseConfig (rt := reference_runtime) ∅ = Ok defaults) as Hc
    by (vm_compute; reflexivity).
  assert (Forall has_name mixed_case_nodes) as Hl
    by (repeat constructor; eexists; reflexivity).
  split_and!; [exact Hc|exact Hl|].
  destruct (default_options_passthrough (rt := reference_runtime) ∅
              mixed_case_nodes Hc Hl) as (_ & out & Hout & _ & _ & Hid).
  rewrite Hout. f_equal. apply Hid.
  apply (bool_decide_unpack _). vm_compute. exact I.
Defined.

(** ** C4: numbering of repeated names *)

(** C4: with [conflict=index] and [indexPad=2], three nodes named [HK]
    come out, in their order, as [HK], [HK 02] and [HK 03].  In general,
    under [conflict=index] with an integral [indexPad] the stage returns
    as many nodes as it was given; a node whose name has not occurred
    earlier is returned unchanged; a node that repeats a name gets a space
    and its occurrence count, padded with zeros to [max 2 indexPad]
    digits (a longer count is not cut). *)
Theorem conflict_index_numbers_repeats `{rt : Runtime} :
  (∀ p1 p2 p3 : obj,
     get p1 "name" = str "HK" → get p2 "name" = str "HK" →
     get p3 "name" = str "HK" →
     operator index_args (VArray [VObject p1; VObject p2; VObject p3])
     = Ok [p1; set_field "name" (str "HK 02") p2;
           set_field "name" (str "HK 03") p3])
  ∧ (∀ (cfg : config) (w : Z) (l : list obj) (i : nat) (p : obj),
       conflict cfg = js "index" → indexPad cfg = Int w → l !! i = Some p →
       let count := (occurrences (node_name p) (take i l) + 1)%N in
       length (conflict_stage cfg l) = length l
       ∧ (node_name p ∉ node_name <$> take i l →
          conflict_stage cfg l !! i = Some p)
       ∧ (node_name p ∈ node_name <$> take i l →
          conflict_stage cfg l !! i
          = Some (set_field "name"
                    (VStr (node_name p ++ js " "
                           ++ padStart0 (Z.max 2 w) (decimal count))) p))
       ∧ length (padStart0 (Z.max 2 w) (decimal count))
         = Z.to_nat (Z.max 2 w) `max` length (decimal count)).
Proof.
  split.
  - intros p1 p2 p3 H1 H2 H3. unfold operator.
    rewrite parseConfig_index. cbn [mbind result_bind].
    rewrite (run_defaults [p1; p2; p3]).
    2:{ repeat constructor; by eexists. }
    rewrite !conflict_loop_cons by done.
    unfold resolve, node_name. rewrite H1, H2, H3.
    unfold str. cbn [safeStr to_string].
    rewrite lookup_empty, !lookup_insert_eq. reflexivity.
  - intros cfg w l i p Hc Hw Hi count.
    assert (str_eqb (conflict cfg) (js "drop") = false) as Hd by by rewrite Hc.
    assert (conflict_stage cfg l !! i = Some (resolve cfg count p)) as Hr.
    { unfold conflict_stage. rewrite Hc.
      change (str_eqb (js "index") (js "none")) with false. cbv iota.
      rewrite (conflict_loop_lookup cfg ∅ l i p Hd Hi), lookup_empty.
      by rewrite N.add_0_l. }
    split_and!.
    + unfold conflict_stage. rewrite Hc.
      change (str_eqb (js "index") (js "none")) with false. cbv iota.
      by apply conflict_loop_length.
    + intros Hfresh. rewrite Hr. unfold resolve. subst count.
      by rewrite occurrences_0.
    + intros Hrep. rewrite Hr. unfold resolve, index_suffix.
      rewrite Hc, Hw.
      change (str_eqb (js "index") (js "hash")) with false. cbn [math_max].
      destruct (count =? 1)%N eqn:E; [|done].
      apply N.eqb_eq in E. apply occurrences_pos in Hrep. subst count. lia.
    + apply padStart0_length.
Qed.

Lemma conflict_index_numbers_repeats_witness :
  output_names
    (operator (rt := reference_runtime) index_args (VArray (VObject <$> hk_nodes)))
  = Some [js "HK"; js "HK 02"; js "HK 03"]
  ∧ conflict_stage (rt := reference_runtime) defaults hk_nodes !! 2%nat
    = Some (set_field "name" (str "HK 03") (node "HK" "vless" "c.example" 8443)).
Proof.
  destruct (conflict_index_numbers_repeats (rt := reference_runtime))
    as [Hex Hgen].
  split.
  - change (VObject <$> hk_nodes) with
      [VObject (node "HK" "vmess" "a.example" 443);
       VObject (node "HK" "trojan" "b.example" 443);
       VObject (node "HK" "vless" "c.example" 8443)].
    rewrite (Hex (node "HK" "vmess" "a.example" 443)
                 (node "HK" "trojan" "b.example" 443)
                 (node "HK" "vless" "c.example" 8443) eq_refl eq_refl eq_refl).
    vm_compute. reflexivity.
  - destruct (Hgen defaults 2%Z hk_nodes 2%nat
                (node "HK" "vless" "c.example" 8443) eq_refl eq_refl eq_refl)
      as (_ & _ & Hrep & _).
    rewrite Hrep; [reflexivity|].
    apply (bool_decide_unpack _). vm_compute. exact I.
Defined.

(** ** C5: the hash *)

(** C5: [generateHash] is the unsigned 32-bit rolling hash of the
    specification (seed 5381, [hash * 33 + charCode] modulo 2^32) in
    lowercase hexadecimal, cut down to its last [max 1 hashLen] characters;
    under [conflict=hash] a node that repeats a name gets a hyphen and that
    hash of its [server:port:type:name].  The result is a function of the
    text and the length alone. *)
Theorem generateHash_rolling_hash `{rt : Runtime} :
  (∀ s hashLen, generateHash s (Int hashLen) = spec_hash s hashLen)
  ∧ (∀ s hashLen,
       length (spec_hash s hashLen)
       = Z.to_nat (Z.max 1 hashLen)
         `min` length (hexadecimal (Z.to_N (rolling_hash s))))
  ∧ (∀ (cfg : config) (n : Z) (l : list obj) (i : nat) (p : obj),
       conflict cfg = js "hash" → hashLen cfg = Int n → l !! i = Some p →
       node_name p ∈ node_name <$> take i l →
       conflict_stage cfg l !! i
       = Some (set_field "name"
                 (VStr (node_name p ++ js "-" ++ spec_hash (hash_input p) n)) p)).
Proof.
  assert (∀ s hashLen, generateHash s (Int hashLen) = spec_hash s hashLen) as Hspec.
  { intros s n. unfold generateHash, spec_hash. cbn [math_max slice_neg].
    by rewrite hash_loop_rolling, last_chars_drop. }
  split_and!; [done| |].
  - intros s n. unfold spec_hash. rewrite last_chars_drop, length_drop. lia.
  - intros cfg n l i p Hc Hn Hi Hrep.
    assert (str_eqb (conflict cfg) (js "drop") = false) as Hd by by rewrite Hc.
    unfold conflict_stage. rewrite Hc.
    change (str_eqb (js "hash") (js "none")) with false. cbv iota.
    rewrite (conflict_loop_lookup cfg ∅ l i p Hd Hi), lookup_empty.
    unfold resolve. rewrite Hc, Hn, Hspec.
    change (str_eqb (js "hash") (js "hash")) with true. cbv iota.
    destruct (_ =? 1)%N eqn:E; [|done].
    apply N.eqb_eq in E. apply occurrences_pos in Hrep. cbn [default] in E. lia.
Qed.

Lemma generateHash_rolling_hash_witness :
  spec_hash (js "a") 4 = js "b606"
  ∧ conflict_stage (rt := reference_runtime) (base_config [] false "hash")
      [node "a" "" "" 0; node "a" "" "" 0] !! 1%nat
    = Some (set_field "name" (VStr (js "a-" ++ spec_hash (js ":0::a") 4))
              (node "a" "" "" 0)).
Proof.
  destruct (generateHash_rolling_hash (rt := reference_runtime))
    as (Hspec & _ & Hstage).
  split; [by rewrite <- Hspec|].
  apply (Hstage (base_config [] false "hash") 4%Z
           [node "a" "" "" 0; node "a" "" "" 0] 1%nat (node "a" "" "" 0));
    [reflexivity|reflexivity|reflexivity|].
  apply (bool_decide_unpack _). vm_compute. exact I.
Defined.

(** ** C6: deduplication by address *)

(** C6: with [dedupe=addr], whenever the options parse, the call returns
    a list in which no two nodes have the same [server:port:type] key, nor
    the same triple of server, port and type, so no two nodes agree on all
    three fields.  The dedupe stage keeps exactly the nodes whose key no
    earlier node has, in their order: it is first-wins on the key as the
    specification words it, and, where server and port hold no colon,
    first-wins on the triple itself, so that a node differing from every
    earlier node in its server, its port or its type survives.  With
    [dedupe=addr] as the only option and pairwise distinct names, the call
    returns exactly the first node of every triple, in input order. *)
Theorem dedupe_addr_first_wins `{rt : Runtime}
    (args : gmap string jsstring) (proxies : value) (cfg : config) :
  parseConfig args = Ok cfg →
  args !! "dedupe" = Some (js "addr") →
  (∃ out, operator args proxies = Ok out
    ∧ NoDup (addr_of <$> out)
    ∧ NoDup (addr_triple <$> out)
    ∧ (∀ i j p q, i ≠ j → out !! i = Some p → out !! j = Some q →
         ¬ (get p "server" = get q "server" ∧ get p "port" = get q "port"
            ∧ get p "type" = get q "type")))
  ∧ (∀ l, dedupe_stage cfg l = first_per_key addr_of [] l
          ∧ dedupe_stage cfg l = first_per_key spec_addr_key [] l
          ∧ dedupe_stage cfg l `sublist_of` l
          ∧ (Forall colon_free l →
             dedupe_stage cfg l = first_per_key addr_triple [] l))
  ∧ (∀ l i p, l !! i = Some p →
       (spec_addr_key p ∉ spec_addr_key <$> take i l →
        p ∈ dedupe_stage cfg l)
       ∧ (Forall colon_free l → addr_triple p ∉ addr_triple <$> take i l →
          p ∈ dedupe_stage cfg l))
  ∧ (∀ l, Forall has_name l → Forall colon_free l →
       NoDup (node_name <$> l) →
       operator dedupe_args (VArray (VObject <$> l))
       = Ok (first_per_key addr_triple [] l)).
Proof.
  intros Hc Hd. pose proof (keyword_addr _ _ Hc Hd) as Haddr.
  assert (∀ c, dedupe c = js "addr" → ∀ l, Forall colon_free l →
            dedupe_stage c l = first_per_key addr_triple [] l) as Htriple.
  { intros c Hca l Hl. rewrite dedupe_stage_first_per_key by done.
    apply (first_per_key_change_key colon_free addr_of addr_triple [] l);
      [|constructor|done].
    intros x y Hx Hy. by apply addr_of_eq_triple. }
  split_and!.
  - exists (run cfg proxies). unfold operator. rewrite Hc.
    pose proof (run_addr_NoDup cfg proxies Haddr) as Hnd.
    split_and!; [done|done|by apply NoDup_addr_triple|].
    intros i j p q Hij Hp Hq (Hs & Hpo & Ht).
    apply Hij. eapply NoDup_lookup; [exact Hnd| |].
    + rewrite list_lookup_fmap, Hp. done.
    + rewrite list_lookup_fmap, Hq. simpl.
      unfold addr_of, node_type. by rewrite Hs, Hpo, Ht.
  - intros l. split_and!.
    + by apply dedupe_stage_first_per_key.
    + by apply dedupe_stage_first_per_key.
    + apply dedupe_stage_sublist.
    + by apply Htriple.
  - intros l i p Hi. split.
    + intros Hfresh. rewrite dedupe_stage_first_per_key by done.
      apply (first_per_key_keeps addr_of [] l i p Hi);
        [apply not_elem_of_nil|done].
    + intros Hl Hfresh. rewrite Htriple by done.
      apply (first_per_key_keeps addr_triple [] l i p Hi);
        [apply not_elem_of_nil|done].
  - intros l Hn Hl Hnd. unfold operator. rewrite parseConfig_dedupe_addr.
    cbn [mbind result_bind]. f_equal. unfold run.
    rewrite sanitize_records, filter_all by done.
    rewrite Htriple by done.
    set (l' := first_per_key addr_triple [] l).
    assert (l' `sublist_of` l) as Hsub by apply first_per_key_sublist.
    assert (processName
              (config_with [] false false (Int 0) (Int 2) (Int 4) "addr" "" "index")
            <$> l' = l') as ->.
    { assert (Forall has_name l') as Hn'.
      { apply Forall_forall. intros x Hx.
        apply (proj1 (Forall_forall _ _) Hn).
        by apply (sublist_subseteq _ _ Hsub). }
      clear -Hn'. induction Hn' as [|p t Hp _ IH]; [done|].
      by rewrite fmap_cons, processName_config_with, IH. }
    change (sort_stage _ l') with l'.
    apply conflict_loop_distinct; [done|].
    eapply sublist_NoDup; [exact Hnd|]. exact (fmap_sublist node_name _ _ Hsub).
Qed.

Lemma dedupe_addr_first_wins_witness :
  dedupe_args !! "dedupe" = Some (js "addr")
  ∧ operator (rt := reference_runtime) dedupe_args
      (VArray (VObject <$> address_nodes))
    = Ok [node "A" "vmess" "a.example" 443; node "B" "vmess" "a.example" 8443;
          node "C" "trojan" "a.example" 443; node "E" "vmess" "b.example" 443]
  ∧ NoDup (addr_triple (rt := reference_runtime)
             <$> [node "A" "vmess" "a.example" 443;
                  node "B" "vmess" "a.example" 8443;
                  node "C" "trojan" "a.example" 443;
                  node "E" "vmess" "b.example" 443])
  ∧ node "B" "vmess" "a.example" 8443
    ∈ dedupe_stage (rt := reference_runtime)
        (config_with [] false false (Int 0) (Int 2) (Int 4) "addr" "" "index")
        address_nodes.
Proof.
  assert (Forall colon_free address_nodes) as Hcolon
    by (repeat constructor; apply (bool_decide_unpack _); vm_compute; exact I).
  destruct (dedupe_addr_first_wins (rt := reference_runtime) dedupe_args
              (VArray (VObject <$> address_nodes))
              (config_with [] false false (Int 0) (Int 2) (Int 4) "addr" "" "index")
              parseConfig_dedupe_addr eq_refl)
    as ((out & Hout & _ & Hnd & _) & _ & Hkeep & Hexact).
  assert (operator (rt := reference_runtime) dedupe_args
            (VArray (VObject <$> address_nodes))
          = Ok [node "A" "vmess" "a.example" 443;
                node "B" "vmess" "a.example" 8443;
                node "C" "trojan" "a.example" 443;
                node "E" "vmess" "b.example" 443]) as Hrun.
  { rewrite (Hexact address_nodes); [reflexivity| |exact Hcolon|].
    - repeat constructor; by eexists.
    - apply (bool_decide_unpack _). vm_compute. exact I. }
  split_and!; [reflexivity|exact Hrun| |].
  - rewrite Hrun in Hout. by injection Hout as <-.
  - apply (Hkeep address_nodes 1%nat); [reflexivity|exact Hcolon|].
    apply (bool_decide_unpack _). vm_compute. exact I.
Defined.

(** ** C7: fields other than the name *)

(** C7: every node the call returns is one of the records of the input
    list with only its [name] set: every other field reads as in the input,
    and when the input record has a [name] the fields are the same ones in
    the same order.  This holds for every option map for which the call
    returns. *)
Theorem fields_other_than_name_preserved `{rt : Runtime}
    (args : gmap string jsstring) (vs : list value) (out : list obj) :
  operator args (VArray vs) = Ok out →
  Forall (λ q, ∃ v p,
    v ∈ vs ∧ fields_of v = Some p ∧ same_but_name p q) out.
Proof.
  unfold operator. intros (cfg & _ & [= <-])%bind_Ok.
  apply Forall_forall. intros q (v & p & n & Hv & Hp & ->)%run_elem.
  exists v, p. split_and!; [done|done|]. apply set_name_same_but_name.
Qed.

Lemma fields_other_than_name_preserved_witness :
  ∃ out,
    operator (rt := reference_runtime) flag_prefix_args
      (VArray [VNull; VObject us_node]) = Ok out
    ∧ Forall (λ q, ∃ v p,
        v ∈ [VNull; VObject us_node] ∧ fields_of v = Some p
        ∧ same_but_name p q) out.
Proof.
  eexists. split; [vm_compute; reflexivity|].
  apply (fields_other_than_name_preserved (rt := reference_runtime)
           flag_prefix_args).
  vm_compute. reflexivity.
Defined.

(** ** C8: index suffixes can collide *)

(** C8: [conflict=index] does not make names distinct.  The nodes named
    [HK], [HK], [HK 02] come out as [HK], [HK 02], [HK 02]: the second is
    renamed to the name the third already has, and the third, first of its
    own name, is left as it is. *)
Theorem conflict_index_can_collide `{rt : Runtime} :
  output_names
    (operator {[ "conflict" := js "index" ]}
       (VArray (VObject <$> colliding_nodes)))
  = Some [js "HK"; js "HK 02"; js "HK 02"]
  ∧ ¬ NoDup [js "HK"; js "HK 02"; js "HK 02"].
Proof.
  split.
  - unfold operator. rewrite parseConfig_conflict_index.
    vm_compute. reflexivity.
  - intros Hnd. apply NoDup_cons in Hnd as [_ Hnd].
    apply NoDup_cons in Hnd as [Hn _]. apply Hn. by left.
Qed.

(** ** C9: an argument that is not an array *)

(** C9: when the options parse and the argument is not an array, the
    call returns the empty list.  (Options are parsed first and without
    regard to the argument; see C1 for option maps that do not parse.) *)
Theorem non_array_gives_empty_list `{rt : Runtime}
    (args : gmap string jsstring) (proxies : value) (cfg : config) :
  parseConfig args = Ok cfg →
  (∀ l, proxies ≠ VArray l) →
  operator args proxies = Ok [].
Proof.
  intros Hc Hna. unfold operator. rewrite Hc. simpl.
  by rewrite run_not_array.
Qed.

Lemma non_array_gives_empty_list_witness :
  operator (rt := reference_runtime) flag_prefix_args VNull = Ok []
  ∧ operator (rt := reference_runtime) ∅ (str "HK") = Ok []
  ∧ operator (rt := reference_runtime) ∅ (VObject us_node) = Ok [].
Proof.
  split_and!.
  - apply (non_array_gives_empty_list (rt := reference_runtime)
             flag_prefix_args VNull (base_config (js "MySub") true "index"));
      [vm_compute; reflexivity|discriminate].
  - apply (non_array_gives_empty_list (rt := reference_runtime)
             ∅ (str "HK") defaults); [vm_compute; reflexivity|discriminate].
  - apply (non_array_gives_empty_list (rt := reference_runtime)
             ∅ (VObject us_node) defaults);
      [vm_compute; reflexivity|discriminate].
Defined.

(** ** C10: types are compared without regard to case *)

(** C10: two nodes whose types have the same upper-case form are the same
    to every stage that looks at the type.  The filter keeps both or
    neither when their names agree; with equal server and port they have
    the same address key, and under [dedupe=addr] the second is dropped as
    a duplicate of the first; under [sortBy=type] they have the same sort
    key. *)
Theorem type_comparison_ignores_case `{rt : Runtime} (cfg : config) (p q : obj) :
  toUpperCase (safeStr (get p "type")) = toUpperCase (safeStr (get q "type")) →
  (node_name p = node_name q → keep cfg p = keep cfg q)
  ∧ (safeStr (get p "server") = safeStr (get q "server") →
     safeStr (get p "port") = safeStr (get q "port") →
     addr_of p = addr_of q
     ∧ (dedupe cfg = js "addr" → dedupe_stage cfg [p; q] = [p]))
  ∧ (sortBy cfg = js "type" → sort_key cfg p = sort_key cfg q).
Proof.
  intros Ht. split_and!.
  - intros Hn. unfold keep, node_type. by rewrite Ht, Hn.
  - intros Hs Hp.
    assert (addr_of p = addr_of q) as Ha.
    { unfold addr_of, node_type. by rewrite Ht, Hs, Hp. }
    split; [done|]. intros Hd.
    rewrite dedupe_stage_first_per_key by done. cbn [first_per_key app].
    destruct (decide (addr_of p ∈ [])) as [?%elem_of_nil|_]; [done|].
    destruct (decide (addr_of q ∈ [addr_of p])) as [_|Hn]; [done|].
    destruct Hn. rewrite Ha. by left.
  - intros Hs. unfold sort_key, node_type. by rewrite Hs, Ht.
Qed.

Lemma type_comparison_ignores_case_witness :
  @toUpperCase reference_runtime (js "vmess")
  = @toUpperCase reference_runtime (js "VMESS")
  ∧ addr_of (rt := reference_runtime) (node "A" "vmess" "a.example" 443)
    = addr_of (rt := reference_runtime) (node "B" "VMESS" "a.example" 443)
  ∧ output_names
      (operator (rt := reference_runtime)
         {[ "onlyTypes" := js "VMess"; "dedupe" := js "addr" ]}
         (VArray (VObject <$> mixed_case_nodes)))
    = Some [js "A"; js "C"].
Proof.
  split_and!; [reflexivity| |vm_compute; reflexivity].
  destruct (type_comparison_ignores_case (rt := reference_runtime) defaults
              (node "A" "vmess" "a.example" 443)
              (node "B" "VMESS" "a.example" 443) eq_refl) as (_ & Haddr & _).
  by destruct (Haddr eq_refl eq_refl) as [-> _].
Defined.

(** * Further properties of the script *)

(** ** Texts of a given shape *)

Lemma truthy_ne s : truthy s = true ↔ s ≠ [].
Proof. by destruct s. Qed.

Lemma no_neighbours_nil P : no_neighbours P [].
Proof. intros l1 a b l2 H. by destruct l1. Qed.

Lemma no_neighbours_one P a : no_neighbours P [a].
Proof. intros l1 x y l2 H. destruct l1 as [|? [|? ?]]; discriminate. Qed.

Lemma no_neighbours_cons P a b l :
  no_neighbours P (a :: b :: l) ↔ P a b = false ∧ no_neighbours P (b :: l).
Proof.
  split.
  - intros H. split; [by apply (H [] a b l)|].
    intros l1 x y l2 E. apply (H (a :: l1) x y l2). by rewrite E.
  - intros [Hab H] l1 x y l2 E. destruct l1 as [|z l1].
    + by injection E as <- <- <-.
    + injection E as <- E. by apply (H l1 x y l2).
Qed.

Lemma no_neighbours_app_inv P pre s post :
  no_neighbours P (pre ++ s ++ post) → no_neighbours P s.
Proof.
  intros H l1 a b l2 ->. apply (H (pre ++ l1) a b (l2 ++ post)).
  by rewrite <- !app_assoc.
Qed.

Lemma drop_spaces_split s :
  ∃ pre, s = pre ++ drop_spaces s ∧ Forall (λ c, is_space c = true) pre.
Proof.
  induction s as [|c s (pre & E & Hpre)]; [by exists []|]. simpl.
  destruct (is_space c) eqn:Hc.
  - exists (c :: pre). split; [by rewrite E at 1|by constructor].
  - by exists [].
Qed.

Lemma drop_spaces_head s c l : drop_spaces s = c :: l → is_space c = false.
Proof.
  induction s as [|x s IH]; [done|]. simpl.
  destruct (is_space x) eqn:Hx; [done|]. by intros [= <- _].
Qed.

Lemma drop_spaces_id s :
  (∀ c l, s = c :: l → is_space c = false) → drop_spaces s = s.
Proof. destruct s as [|c s]; [done|]. intros H. simpl. by rewrite (H c s). Qed.

(** [trim] removes a run of whitespace from each end and nothing else. *)
Lemma trim_split s :
  ∃ pre post, s = pre ++ trim s ++ post
    ∧ Forall (λ c, is_space c = true) pre
    ∧ Forall (λ c, is_space c = true) post.
Proof.
  unfold trim.
  destruct (drop_spaces_split s) as (pre & E1 & Hpre).
  destruct (drop_spaces_split (rev (drop_spaces s))) as (post & E2 & Hpost).
  exists pre, (rev post). split_and!; [|done|by apply Forall_rev].
  rewrite E1 at 1. f_equal.
  rewrite <- (rev_involutive (drop_spaces s)), E2 at 1.
  by rewrite rev_app_distr.
Qed.

Lemma trim_trimmed s : trimmed (trim s).
Proof.
  unfold trim. split.
  - intros c l E.
    destruct (drop_spaces_split (rev (drop_spaces s))) as (post & E2 & _).
    apply (f_equal (@rev N)) in E. rewrite rev_involutive in E.
    rewrite E in E2. apply (f_equal (@rev N)) in E2.
    rewrite rev_involutive, rev_app_distr in E2. simpl in E2.
    rewrite rev_app_distr, rev_involutive in E2. simpl in E2.
    by apply (drop_spaces_head s c _ E2).
  - intros l c E. apply (f_equal (@rev N)) in E.
    rewrite rev_involutive, rev_app_distr in E. simpl in E.
    by apply (drop_spaces_head _ _ _ E).
Qed.

Lemma trim_id s : trimmed s → trim s = s.
Proof.
  intros [Hh Hl]. unfold trim. rewrite (drop_spaces_id s Hh).
  rewrite drop_spaces_id; [apply rev_involutive|].
  intros c l E. apply (Hl (rev l) c).
  by rewrite <- (rev_involutive s), E.
Qed.

Lemma trim_sub P s : Forall P s → Forall P (trim s).
Proof.
  intros H. destruct (trim_split s) as (pre & post & E & _).
  rewrite E in H. apply Forall_app in H as [_ H]. by apply Forall_app in H as [H _].
Qed.

Lemma trim_no_neighbours P s : no_neighbours P s → no_neighbours P (trim s).
Proof.
  intros H. destruct (trim_split s) as (pre & post & E & _).
  rewrite E in H. by apply no_neighbours_app_inv in H.
Qed.

Lemma filter_all_space l :
  Forall (λ c, is_space c = true) l → List.filter non_space l = [].
Proof.
  induction 1 as [|c l Hc _ IH]; [done|]. simpl. unfold non_space at 1.
  by rewrite Hc.
Qed.

Lemma trim_non_space s : List.filter non_space (trim s) = List.filter non_space s.
Proof.
  destruct (trim_split s) as (pre & post & E & Hpre & Hpost).
  rewrite E at 2. rewrite !List.filter_app.
  by rewrite (filter_all_space pre), (filter_all_space post), app_nil_r.
Qed.

(** ** Whitespace runs *)

Lemma replace_runs_no_double flush pending s :
  (∀ run, flush run = [] ∨ ∃ x, flush run = [x]) →
  no_neighbours both_space (replace_space_runs flush pending s).
Proof.
  intros Hf. revert pending. induction s as [|c s IH]; intros pending; simpl.
  - destruct (Hf pending) as [->|[x ->]];
      [apply no_neighbours_nil|apply no_neighbours_one].
  - destruct (is_space c) eqn:Hc; [apply IH|].
    assert (no_neighbours both_space (c :: replace_space_runs flush [] s)) as H.
    { specialize (IH []). destruct (replace_space_runs flush [] s) as [|d r].
      - apply no_neighbours_one.
      - apply no_neighbours_cons. split; [|done].
        unfold both_space. by rewrite Hc. }
    destruct (Hf pending) as [->|[x ->]]; [done|].
    apply no_neighbours_cons. split; [|done].
    unfold both_space. rewrite Hc. apply andb_false_r.
Qed.

Lemma flush_two_shape run :
  flush_two_or_more run = [] ∨ ∃ x, flush_two_or_more run = [x].
Proof. destruct run as [|a [|b r]]; simpl; eauto. Qed.

Lemma flush_one_shape run :
  flush_one_or_more run = [] ∨ ∃ x, flush_one_or_more run = [x].
Proof. destruct run as [|a r]; simpl; eauto. Qed.

(** A text with single whitespace only is a fixed point of the collapse. *)
Lemma replace_runs_fixed pending s :
  length pending ≤ 1 →
  Forall (λ c, is_space c = true) pending →
  no_neighbours both_space (pending ++ s) →
  replace_space_runs flush_two_or_more pending s = pending ++ s.
Proof.
  revert pending. induction s as [|c s IH]; intros pending Hlen Hsp Hnn; simpl.
  - rewrite app_nil_r. by destruct pending as [|a [|b r]]; simpl in *; try lia.
  - destruct (is_space c) eqn:Hc.
    + destruct pending as [|a [|b r]]; simpl in *; try lia.
      * apply (IH [c]); [simpl; lia|by repeat constructor|done].
      * apply no_neighbours_cons in Hnn as [Hac _].
        apply Forall_cons in Hsp as [Ha _].
        unfold both_space in Hac. by rewrite Ha, Hc in Hac.
    + assert (flush_two_or_more pending = pending) as ->.
      { by destruct pending as [|a [|b r]]; simpl in *; try lia. }
      rewrite (IH []); [done|simpl; lia|constructor|].
      simpl. apply (no_neighbours_app_inv _ (pending ++ [c]) s []).
      by rewrite app_nil_r, <- app_assoc.
Qed.

Lemma flush_two_space run :
  Forall (λ c, is_space c = true) run →
  Forall (λ c, is_space c = true) (flush_two_or_more run).
Proof.
  intros H. destruct run as [|a [|b r]]; simpl; [done|done|].
  by repeat constructor.
Qed.

Lemma replace_runs_non_space flush pending s :
  (∀ run, Forall (λ c, is_space c = true) run →
          Forall (λ c, is_space c = true) (flush run)) →
  Forall (λ c, is_space c = true) pending →
  List.filter non_space (replace_space_runs flush pending s)
  = List.filter non_space s.
Proof.
  intros Hf. revert pending. induction s as [|c s IH]; intros pending Hp; simpl.
  - by apply filter_all_space, Hf.
  - unfold non_space at 2. destruct (is_space c) eqn:Hc; simpl.
    + apply IH, Forall_app. split; [done|by repeat constructor].
    + rewrite List.filter_app, (filter_all_space _ (Hf _ Hp)). simpl.
      unfold non_space at 1. rewrite Hc. simpl. f_equal. by apply IH.
Qed.

Lemma replace_runs_plain_space pending s :
  Forall (λ c, is_space c = true → c = 32%N)
    (replace_space_runs flush_one_or_more pending s).
Proof.
  revert pending. induction s as [|c s IH]; intros pending; simpl.
  - destruct pending; simpl; by repeat constructor.
  - destruct (is_space c) eqn:Hc; [apply IH|].
    apply Forall_app. split.
    + destruct pending; simpl; by repeat constructor.
    + constructor; [by rewrite Hc|apply IH].
Qed.

Lemma trimSpaces_trimmed s : trimmed (trimSpaces s).
Proof. apply trim_trimmed. Qed.

Lemma trimSpaces_no_double s : no_neighbours both_space (trimSpaces s).
Proof. apply trim_no_neighbours, replace_runs_no_double, flush_two_shape. Qed.

Lemma trimSpaces_fixed s :
  trimmed s → no_neighbours both_space s → trimSpaces s = s.
Proof.
  intros Ht Hnn. unfold trimSpaces.
  rewrite (replace_runs_fixed [] s); [by apply trim_id| | |done].
  - simpl. lia.
  - constructor.
Qed.

(** ** Truncation *)

Lemma truncateText_length s z :
  (0 < z)%Z → length (truncateText s z) ≤ Z.to_nat z.
Proof.
  intros Hz. unfold truncateText, slice_to.
  destruct (z =? 0)%Z eqn:E0; [lia|].
  destruct (z <? Z.of_nat (length s))%Z eqn:E; [|lia].
  destruct (z - 1 <? 0)%Z eqn:E1; [lia|].
  rewrite length_app, length_take. simpl. lia.
Qed.

Lemma truncateText_short s z :
  (Z.of_nat (length s) ≤ z)%Z → truncateText s z = s.
Proof.
  intros Hz. unfold truncateText.
  destruct (z =? 0)%Z; [done|].
  destruct (z <? Z.of_nat (length s))%Z eqn:E; [lia|done].
Qed.

Lemma truncateText_long s z :
  (0 < z < Z.of_nat (length s))%Z →
  truncateText s z = take (Z.to_nat z - 1) s ++ [8230%N].
Proof.
  intros Hz. unfold truncateText, slice_to.
  destruct (z =? 0)%Z eqn:E0; [lia|].
  destruct (z <? Z.of_nat (length s))%Z eqn:E; [|lia].
  destruct (z - 1 <? 0)%Z eqn:E1; [lia|].
  by replace (Z.to_nat (z - 1)) with (Z.to_nat z - 1) by lia.
Qed.

(** ** Surrogates and boundaries *)

Lemma pair_ind (P : jsstring → Prop) :
  P [] → (∀ c, P [c]) → (∀ c d r, P r → P (d :: r) → P (c :: d :: r)) →
  ∀ s, P s.
Proof.
  intros H0 H1 H2 s.
  assert (P s ∧ ∀ c, P (c :: s)) as [H _]; [|done].
  induction s as [|d r [IH1 IH2]]; [by split|].
  split; [apply IH2|]. intros c. apply H2; [done|apply IH2].
Qed.

Lemma removeEmoji_cons2 c d r :
  removeEmoji (c :: d :: r)
  = if is_high_surrogate c && is_low_surrogate d then removeEmoji r
    else c :: removeEmoji (d :: r).
Proof. reflexivity. Qed.

Lemma boundary_not_space a b : boundary a b = true → (a =? 32)%N = false.
Proof.
  intros H. destruct (N.eqb_spec a 32) as [->|]; [|done]. by vm_compute in H.
Qed.

Lemma boundary_space_r a : boundary a 32 = false.
Proof.
  unfold boundary. change (is_alnum 32) with false. change (is_cjk 32) with false.
  by rewrite !andb_false_r.
Qed.

Lemma boundary_space_l b : boundary 32 b = false.
Proof. reflexivity. Qed.

Lemma addCjkSpaces_cons2 a b r :
  addCjkSpaces (a :: b :: r)
  = a :: (if boundary a b then [32%N] else []) ++ addCjkSpaces (b :: r).
Proof.
  cbn [addCjkSpaces]. fold (boundary a b).
  destruct (boundary a b) eqn:E; [|done].
  by rewrite (boundary_not_space a b E).
Qed.

(** ** The text steps *)

(** X1 ([sanitizeChars]): the result has the length of the text and holds
    none of the nine characters backslash, slash, colon, asterisk, question
    mark, double quote, angle brackets and bar; a character that is none of
    them stays at its place, each of them becomes a hyphen at its place;
    sanitising twice is sanitising once. *)
Theorem sanitizeChars_replaces_illegal (s : jsstring) :
  length (sanitizeChars s) = length s
  ∧ Forall (λ c, illegal_char c = false) (sanitizeChars s)
  ∧ (∀ i c, s !! i = Some c → illegal_char c = false →
       sanitizeChars s !! i = Some c)
  ∧ (∀ i c, s !! i = Some c → illegal_char c = true →
       sanitizeChars s !! i = Some 45%N)
  ∧ sanitizeChars (sanitizeChars s) = sanitizeChars s.
Proof.
  assert (Forall (λ c, illegal_char c = false) (sanitizeChars s)) as Hall.
  { unfold sanitizeChars. apply Forall_fmap, Forall_forall. intros c _. simpl.
    destruct (illegal_char c) eqn:E; [reflexivity|done]. }
  split_and!; [apply length_fmap|done| | |].
  - intros i c Hi Hc. unfold sanitizeChars, jsstring in *.
    rewrite list_lookup_fmap, Hi. simpl. by rewrite Hc.
  - intros i c Hi Hc. unfold sanitizeChars, jsstring in *.
    rewrite list_lookup_fmap, Hi. simpl. by rewrite Hc.
  - revert Hall. generalize (sanitizeChars s). intros t Ht.
    unfold sanitizeChars. induction Ht as [|c t Hc _ IH]; [done|].
    rewrite fmap_cons, Hc. by f_equal.
Qed.

(** X2 ([trimSpaces]): the result has no whitespace at either end and no two
    whitespace characters in a row; a text that already has this shape is
    returned as it is, so the step is idempotent; and the characters that
    are not whitespace come out unchanged, in their order.  (A single
    whitespace character other than a space, such as a tab, is kept.) *)
Theorem trimSpaces_normal_form (s : jsstring) :
  trimmed (trimSpaces s)
  ∧ no_neighbours both_space (trimSpaces s)
  ∧ (trimmed s → no_neighbours both_space s → trimSpaces s = s)
  ∧ trimSpaces (trimSpaces s) = trimSpaces s
  ∧ List.filter non_space (trimSpaces s) = List.filter non_space s
  ∧ trimSpaces [97; 9; 98]%N = [97; 9; 98]%N.
Proof.
  split_and!.
  - apply trimSpaces_trimmed.
  - apply trimSpaces_no_double.
  - apply trimSpaces_fixed.
  - apply trimSpaces_fixed; [apply trimSpaces_trimmed|apply trimSpaces_no_double].
  - unfold trimSpaces. rewrite trim_non_space.
    apply replace_runs_non_space; [apply flush_two_space|constructor].
  - reflexivity.
Qed.

(** X3 ([removeEmoji]): the result is a subsequence of the text; a text
    without a high surrogate is returned as it is; on well-formed UTF-16 the
    result is the text without its surrogates, that is without every
    character outside the Basic Multilingual Plane, and with every character
    of the plane. *)
Theorem removeEmoji_drops_surrogate_pairs (s : jsstring) :
  removeEmoji s `sublist_of` s
  ∧ (Forall (λ c, is_high_surrogate c = false) s → removeEmoji s = s)
  ∧ (well_formed s = true →
     removeEmoji s = List.filter (λ c, negb (is_surrogate c)) s).
Proof.
  induction s as [| |c d r (IH1 & IH2 & IH3) (IH1' & IH2' & IH3')] using pair_ind.
  - done.
  - split_and!; [done|done|].
    unfold is_surrogate. simpl. intros H.
    destruct (is_high_surrogate c); [done|].
    apply andb_prop in H as [H _]. simpl. by rewrite H.
  - rewrite removeEmoji_cons2. split_and!.
    + destruct (_ && _); [by do 2 apply sublist_cons|by apply sublist_skip].
    + intros [Hc Hd]%Forall_cons. rewrite Hc. simpl. f_equal. by apply IH2'.
    + cbn [well_formed]. intros H.
      destruct (is_high_surrogate c) eqn:Hc.
      * apply andb_prop in H as [Hd Hw]. rewrite Hd.
        assert (is_surrogate c = true) as Hsc by (unfold is_surrogate; by rewrite Hc).
        assert (is_surrogate d = true) as Hsd
          by (unfold is_surrogate; by rewrite Hd, orb_true_r).
        cbn [List.filter andb]. rewrite Hsc, Hsd. by apply IH3.
      * apply andb_prop in H as [Hl Hw]. apply negb_true_iff in Hl.
        assert (is_surrogate c = false) as Hsc
          by (unfold is_surrogate; by rewrite Hc, Hl).
        cbn [andb]. rewrite (IH3' Hw). cbn [List.filter]. by rewrite Hsc.
Qed.

(** X4 ([addCjkSpaces]): in the result no CJK character stands next to an
    ASCII letter or digit; the text is a subsequence of the result (only
    spaces are added); a text without such a neighbourhood, and so any text
    without CJK characters, is returned as it is. *)
Theorem addCjkSpaces_separates (s : jsstring) :
  no_neighbours boundary (addCjkSpaces s)
  ∧ s `sublist_of` addCjkSpaces s
  ∧ (no_neighbours boundary s → addCjkSpaces s = s)
  ∧ (Forall (λ c, is_cjk c = false) s → addCjkSpaces s = s).
Proof.
  assert (no_neighbours boundary s → addCjkSpaces s = s) as Hfix.
  { induction s as [|a [|b r] IH]; [done|done|].
    intros [Hab H]%no_neighbours_cons.
    rewrite addCjkSpaces_cons2, Hab. simpl. f_equal. by apply IH. }
  split_and!; [| |done|].
  - clear Hfix.
    induction s as [|a [|b r] IH]; [apply no_neighbours_nil|apply no_neighbours_one|].
    rewrite addCjkSpaces_cons2.
    assert (∃ t, addCjkSpaces (b :: r) = b :: t) as [t Et].
    { destruct r; [by eexists|]. rewrite addCjkSpaces_cons2. by eexists. }
    rewrite Et in *. destruct (boundary a b) eqn:E; simpl.
    + apply no_neighbours_cons. split; [apply boundary_space_r|].
      apply no_neighbours_cons. split; [apply boundary_space_l|done].
    + apply no_neighbours_cons. by split.
  - clear Hfix. induction s as [|a [|b r] IH]; [done|done|].
    rewrite addCjkSpaces_cons2. apply sublist_skip.
    destruct (boundary a b); simpl; [by apply sublist_cons|done].
  - intros Hs. apply Hfix. intros l1 a b l2 ->.
    apply Forall_app in Hs as [_ Hs].
    apply Forall_cons in Hs as [Ha Hs]. apply Forall_cons in Hs as [Hb _].
    unfold boundary. by rewrite Ha, Hb, andb_false_r.
Qed.

(** ** Lists in option values *)

Lemma split_on_pieces p s : Forall (Forall (λ c, p c = false)) (split_on p s).
Proof.
  induction s as [|c s IH]; simpl; [by repeat constructor|].
  destruct (p c) eqn:Hc; [by constructor|].
  destruct (split_on p s) as [|h t]; [by repeat constructor|].
  apply Forall_cons in IH as [Hh Ht]. by repeat constructor.
Qed.

Lemma split_on_none p s : Forall (λ c, p c = false) s → split_on p s = [s].
Proof.
  induction 1 as [|c s Hc _ IH]; [done|]. simpl. by rewrite Hc, IH.
Qed.

Lemma split_on_app p a c b :
  Forall (λ x, p x = false) a → p c = true →
  split_on p (a ++ c :: b) = a :: split_on p b.
Proof.
  intros Ha Hc. induction Ha as [|x a Hx _ IH]; simpl; [by rewrite Hc|].
  by rewrite Hx, IH.
Qed.

Lemma split_on_join p c toks :
  p c = true → toks ≠ [] →
  Forall (Forall (λ x, p x = false)) toks →
  split_on p (join [c] toks) = toks.
Proof.
  intros Hc Hne Ht. induction Ht as [|t toks Hh Ht IH]; [done|].
  destruct toks as [|t' toks'].
  - simpl. by apply split_on_none.
  - change (join [c] (t :: t' :: toks')) with (t ++ c :: join [c] (t' :: toks')).
    rewrite split_on_app by done. f_equal. by apply IH.
Qed.

Lemma filter_truthy_id (toks : list jsstring) :
  Forall (λ t, t ≠ []) toks → filter (λ x, truthy x = true) toks = toks.
Proof.
  induction 1 as [|t toks Ht _ IH]; [done|].
  rewrite filter_cons, decide_True, IH; [done|by apply truthy_ne].
Qed.

Lemma join_no_percent (sep : jsstring) toks :
  37%N ∉ sep → Forall (λ t, 37%N ∉ t) toks → 37%N ∉ join sep toks.
Proof.
  intros Hs. induction 1 as [|t toks Ht Hts IH]; [by intros ?%elem_of_nil|].
  destruct toks as [|t' toks']; [done|].
  change (join sep (t :: t' :: toks')) with (t ++ sep ++ join sep (t' :: toks')).
  rewrite !elem_of_app. tauto.
Qed.

Lemma parseList_clean v toks :
  parseList v = Ok toks → Forall clean_token toks.
Proof.
  unfold parseList. destruct v as [v|]; [|by intros [= <-]].
  destruct (truthy v); [|by intros [= <-]].
  destruct (decodeURI v) as [d|e]; [|done]. simpl. intros [= <-].
  apply Forall_forall. intros t [Ht Hin]%list_elem_of_filter.
  apply list_elem_of_fmap in Hin as (piece & -> & Hp).
  split_and!; [by apply truthy_ne| |apply trim_trimmed].
  apply trim_sub.
  by apply (proj1 (Forall_forall _ _) (split_on_pieces is_list_sep d)).
Qed.

Lemma parseList_joined c toks :
  is_list_sep c = true → c ≠ 37%N →
  Forall clean_token toks → Forall (λ t, 37%N ∉ t) toks →
  parseList (Some (join [c] toks)) = Ok toks.
Proof.
  intros Hsep Hne Hc Hp. unfold parseList.
  destruct toks as [|t toks']; [done|].
  destruct (truthy (join [c] (t :: toks'))) eqn:Etr.
  2:{ apply Forall_cons in Hc as [(Hne' & _ & _) _].
      destruct t; [done|]. by destruct toks'. }
  rewrite decodeURI_plain.
  2:{ apply join_no_percent; [|done].
      intros ?%list_elem_of_singleton. congruence. }
  cbn [mbind result_bind]. f_equal.
  rewrite split_on_join; [|done|done|].
  2:{ eapply Forall_impl; [exact Hc|]. by intros ? (_ & ? & _). }
  assert (trim <$> (t :: toks') = t :: toks') as ->.
  { clear -Hc. induction Hc as [|x l (_ & _ & Hx) _ IH]; [done|].
    by rewrite fmap_cons, trim_id, IH. }
  apply filter_truthy_id. eapply Forall_impl; [exact Hc|]. by intros ? (? & _).
Qed.

(** X5 ([parseList]): an absent or empty value is the empty list; every
    item of a parsed list is non-empty, free of [+] and [,] and without
    whitespace at its ends; and a list of such items without a percent sign,
    written with either separator, parses back to itself. *)
Theorem parseList_round_trip :
  parseList None = Ok [] ∧ parseList (Some []) = Ok []
  ∧ (∀ v toks, parseList v = Ok toks → Forall clean_token toks)
  ∧ (∀ toks, Forall clean_token toks → Forall (λ t, 37%N ∉ t) toks →
       parseList (Some (join (js "+") toks)) = Ok toks
       ∧ parseList (Some (join (js ",") toks)) = Ok toks).
Proof.
  split_and!; [done|done|apply parseList_clean|].
  intros toks Hc Hp. split; by apply parseList_joined.
Qed.

Lemma parseList_round_trip_witness :
  parseList (Some (js " vmess + ss,,trojan ")) = Ok [js "vmess"; js "ss"; js "trojan"]
  ∧ parseList (Some (js "vmess,ss,trojan")) = Ok [js "vmess"; js "ss"; js "trojan"].
Proof.
  destruct parseList_round_trip as (_ & _ & Hclean & Hjoin).
  split; [reflexivity|].
  apply (Hjoin [js "vmess"; js "ss"; js "trojan"]).
  - by apply (Hclean (Some (js " vmess + ss,,trojan "))).
  - repeat constructor; apply (bool_decide_unpack _); vm_compute; exact I.
Defined.

(** ** The type table *)

Section TypeTable.
Context `{rt : Runtime}.

(** X6 (the [map] option): an item without a colon, with nothing before
    its colon or with nothing after it leaves the table as it is; an item
    [k:v] binds the upper-cased, trimmed [k] to the trimmed [v], replacing
    what the table held for it, built-in or not; the options resolve to the
    built-in table with the items of [map] added in their order. *)
Theorem type_pair_overrides (table : gmap jsstring jsstring) :
  (∀ pair, 58%N ∉ pair → add_type_pair table pair = table)
  ∧ (∀ k, 58%N ∉ k → add_type_pair table (k ++ js ":") = table)
  ∧ (∀ v, add_type_pair table (js ":" ++ v) = table)
  ∧ (∀ k v, 58%N ∉ k → 58%N ∉ v → k ≠ [] → v ≠ [] →
       add_type_pair table (k ++ js ":" ++ v)
       = <[toUpperCase (trim k) := trim v]> table
       ∧ add_type_pair table (k ++ js ":" ++ v) !! toUpperCase (trim k)
         = Some (trim v))
  ∧ (∀ args cfg, parseConfig args = Ok cfg →
       ∃ pairs, parseList (args !! "map") = Ok pairs
                ∧ typeAbbr cfg = fold_left add_type_pair pairs typeAbbr_builtin).
Proof.
  assert (∀ s, 58%N ∉ s → Forall (λ x, (58 =? x)%N = false) s) as Hno.
  { intros s Hs. apply Forall_forall. intros x Hx.
    apply N.eqb_neq. by intros <-. }
  assert (∀ k v, 58%N ∉ k → 58%N ∉ v → k ≠ [] → v ≠ [] →
       add_type_pair table (k ++ js ":" ++ v)
       = <[toUpperCase (trim k) := trim v]> table) as Hset.
  { intros k v Hk Hv Hk0 Hv0. unfold add_type_pair.
    change (js ":" ++ v) with (58%N :: v).
    rewrite split_on_app, split_on_none by auto.
    apply truthy_ne in Hk0, Hv0. by rewrite Hk0, Hv0. }
  split_and!.
  - intros pair Hp. unfold add_type_pair. by rewrite split_on_none by auto.
  - intros k Hk. unfold add_type_pair.
    change (js ":") with [58%N].
    rewrite split_on_app by auto. simpl. by rewrite andb_false_r.
  - intros v. unfold add_type_pair. change (js ":" ++ v) with (58%N :: v).
    simpl. by destruct (split_on _ v).
  - intros k v Hk Hv Hk0 Hv0. rewrite Hset by done.
    split; [done|apply lookup_insert_eq].
  - intros args cfg H. unfold parseConfig in H.
    do 8 (apply bind_Ok in H as (? & _ & H)).
    apply bind_Ok in H as (pairs & Hp & H).
    do 2 (apply bind_Ok in H as (? & _ & H)).
    injection H as <-. by exists pairs.
Qed.

End TypeTable.

Lemma type_pair_overrides_witness :
  add_type_pair (rt := reference_runtime) typeAbbr_builtin (js "vmess: V2")
  !! js "VMESS"
  = Some (js "V2").
Proof.
  destruct (type_pair_overrides (rt := reference_runtime) typeAbbr_builtin)
    as (_ & _ & _ & H & _).
  destruct (H (js "vmess") (js " V2")) as [_ Hl];
    [apply (bool_decide_unpack _); vm_compute; exact I ..|].
  exact Hl.
Defined.

(** ** Options *)

Section MoreOptions.
Context `{rt : Runtime}.

Lemma toRegex_none (v : jsstring) :
  v = [] ∨ (∃ e, decodeURI v = Throw e)
  ∨ (∃ src, decodeURI v = Ok src ∧ RegExp_new src = None) →
  toRegex (Some v) = None.
Proof.
  unfold toRegex. intros [->|[[e He]|(src & Hs & Hn)]]; [done| |].
  - destruct (truthy v); [|done]. by rewrite He.
  - destruct (truthy v); [|done]. by rewrite Hs.
Qed.

Lemma parseConfig_fallback args cfg :
  parseConfig args = Ok cfg →
  decoded_or (args !! "fallbackFlag") (js "🏴‍☠️") = Ok (fallbackFlag cfg).
Proof.
  unfold parseConfig. intros H.
  do 7 (apply bind_Ok in H as (? & _ & H)).
  apply bind_Ok in H as (f & Hf & H).
  repeat (apply bind_Ok in H as (? & _ & H)).
  by injection H as <-.
Qed.

Lemma parseConfig_none : parseConfig none_args = Ok (base_config [] false "none").
Proof. eval_config. Qed.

(** X7 (options the script does not read): a key that is none of the
    thirty-four option names changes nothing, whether it is set or
    removed. *)
Theorem unknown_option_ignored (args : gmap string jsstring)
    (k : string) (v : jsstring) (proxies : value) :
  k ∉ option_keys →
  operator (<[k := v]> args) proxies = operator args proxies
  ∧ operator (delete k args) proxies = operator args proxies.
Proof.
  intros Hk.
  assert (∀ key, key ∈ option_keys → k ≠ key) as Hne by (by intros key ? <-).
  unfold operator, parseConfig. split.
  - by rewrite !lookup_insert_ne
      by (apply Hne, (bool_decide_unpack _); vm_compute; exact I).
  - by rewrite !lookup_delete_ne
      by (apply Hne, (bool_decide_unpack _); vm_compute; exact I).
Qed.

(** X8 ([toRegex]): a [regexInclude] or [regexExclude] that is empty, that
    does not decode, or that the engine does not compile is the same as no
    such option: the call neither raises for it nor filters by it. *)
Theorem malformed_regex_is_absent (args : gmap string jsstring)
    (v : jsstring) (proxies : value) :
  v = [] ∨ (∃ e, decodeURI v = Throw e)
  ∨ (∃ src, decodeURI v = Ok src ∧ RegExp_new src = None) →
  operator (<["regexInclude" := v]> args) proxies
  = operator (delete "regexInclude" args) proxies
  ∧ operator (<["regexExclude" := v]> args) proxies
    = operator (delete "regexExclude" args) proxies.
Proof.
  intros Hv%toRegex_none. unfold operator, parseConfig. split.
  - rewrite lookup_insert_eq, lookup_delete_eq, Hv.
    by rewrite !lookup_insert_ne, !lookup_delete_ne by done.
  - rewrite lookup_insert_eq, lookup_delete_eq, Hv.
    by rewrite !lookup_insert_ne, !lookup_delete_ne by done.
Qed.

(** X9 (where option parsing can raise): the options are parsed without
    an exception whenever none of the ten options whose text is decoded
    holds a percent sign and [regionMap] is not set, whatever the other
    options hold (switches that are no switches, lengths that are no
    numbers, patterns that do not compile, percent signs); and each of the
    ten, set to a lone percent sign, ends the call with a [URIError].  Only
    option parsing is spoken of: the stages that follow are total here,
    while in the host a pad width past the limit on the length of a string,
    or a field whose conversion to text fails, can still raise. *)
Theorem option_parsing_raises_by_decoding :
  (∀ args : gmap string jsstring,
     (∀ k s, k ∈ decoded_keys → args !! k = Some s → 37%N ∉ s) →
     args !! "regionMap" = None →
     ∃ cfg, parseConfig args = Ok cfg)
  ∧ (∀ k proxies, k ∈ decoded_keys →
       operator {[ k := js "%" ]} proxies = Throw URIError).
Proof.
  split.
  - intros args Hplain Hno.
    assert (∀ k, k ∈ decoded_keys → ∀ s, args !! k = Some s → 37%N ∉ s)
      as H by (intros k Hk s; by apply Hplain).
    assert (∀ k, bool_decide (k ∈ decoded_keys) = true →
              ∀ s, args !! k = Some s → 37%N ∉ s) as Hd
      by (intros k Hk%bool_decide_eq_true; by apply H).
    unfold parseConfig. rewrite Hno.
    assert (∃ r, match args !! "name" with
                 | Some v => if truthy v then decodeURI v
                             else decoded_or (args !! "subName") []
                 | None => decoded_or (args !! "subName") []
                 end = Ok r) as [? ->].
    { destruct (args !! "name") as [v|] eqn:E;
        [destruct (truthy v);
         [rewrite decodeURI_plain by (by apply (Hd "name"%string)); eauto|]|];
        apply decoded_or_plain, (Hd "subName"%string); done. }
    assert (∃ r, match args !! "sep" with
                 | Some v => decodeURI v
                 | None => Ok (js " - ")
                 end = Ok r) as [? ->].
    { destruct (args !! "sep") as [v|] eqn:E; [|by eauto].
      rewrite decodeURI_plain by (by apply (Hd "sep"%string)). eauto. }
    destruct (decoded_or_plain (args !! "template") []
                (Hd "template"%string eq_refl)) as [? ->].
    destruct (parseList_plain (args !! "include")
                (Hd "include"%string eq_refl)) as [? ->].
    destruct (parseList_plain (args !! "exclude")
                (Hd "exclude"%string eq_refl)) as [? ->].
    destruct (parseList_plain (args !! "onlyTypes")
                (Hd "onlyTypes"%string eq_refl)) as [? ->].
    destruct (parseList_plain (args !! "dropTypes")
                (Hd "dropTypes"%string eq_refl)) as [? ->].
    destruct (decoded_or_plain (args !! "fallbackFlag") (js "🏴‍☠️")
                (Hd "fallbackFlag"%string eq_refl)) as [? ->].
    destruct (parseList_plain (args !! "map") (Hd "map"%string eq_refl))
      as [? ->].
    cbn [mbind result_bind parseList userRegions_of]. eauto.
  - intros k proxies Hk. unfold decoded_keys in Hk.
    repeat (apply elem_of_cons in Hk as [->|Hk]);
      [unfold operator, parseConfig; eval_lookups; reflexivity ..|].
    by apply elem_of_nil in Hk.
Qed.

End MoreOptions.

Lemma unknown_option_ignored_witness :
  (("comment" : string) ∉ option_keys)
  ∧ operator (rt := reference_runtime) {[ "comment" := js "x" ]}
      (VArray (VObject <$> hk_nodes))
    = operator (rt := reference_runtime) ∅ (VArray (VObject <$> hk_nodes)).
Proof.
  assert (("comment" : string) ∉ option_keys) as Hk
    by (apply (bool_decide_unpack _); vm_compute; exact I).
  split; [exact Hk|].
  apply (unknown_option_ignored (rt := reference_runtime) ∅ "comment" (js "x")
           (VArray (VObject <$> hk_nodes)) Hk).
Defined.

Lemma malformed_regex_is_absent_witness :
  decodeURI (js "%") = Throw URIError
  ∧ operator (rt := reference_runtime) {[ "regexInclude" := js "%" ]}
      (VArray (VObject <$> hk_nodes))
    = operator (rt := reference_runtime) ∅ (VArray (VObject <$> hk_nodes)).
Proof.
  split; [reflexivity|].
  destruct (malformed_regex_is_absent (rt := reference_runtime) ∅ (js "%")
              (VArray (VObject <$> hk_nodes))) as [H _].
  - right. left. by exists URIError.
  - rewrite delete_empty in H. exact H.
Defined.

Lemma option_parsing_raises_by_decoding_witness :
  (∃ cfg,
     parseConfig (rt := reference_runtime)
       {[ "maxLen" := js "long"; "regexInclude" := js "%(" ]} = Ok cfg)
  ∧ operator (rt := reference_runtime) {[ "map" := js "%" ]}
      (VArray (VObject <$> hk_nodes))
    = Throw URIError.
Proof.
  destruct (option_parsing_raises_by_decoding (rt := reference_runtime))
    as [Hok Hthrow].
  split.
  - apply Hok; [|reflexivity].
    intros k s Hk Hs. unfold decoded_keys in Hk.
    repeat (apply elem_of_cons in Hk as [->|Hk]);
      try (vm_compute in Hs; discriminate).
    by apply elem_of_nil in Hk.
  - apply Hthrow. apply (bool_decide_unpack _). vm_compute. exact I.
Defined.

(** ** The hash as text *)

Lemma hex_units_lower d : Forall (λ c, is_lower_hex c = true) (hex_units d).
Proof. induction d; simpl; by constructor. Qed.

Lemma hexadecimal_nonempty n : hexadecimal n ≠ [].
Proof.
  unfold hexadecimal. destruct n as [|p]; [done|].
  pose proof (HexadecimalPos.Unsigned.to_uint_nonnil p) as H.
  change (N.to_hex_uint (N.pos p)) with (Pos.to_hex_uint p).
  by destruct (Pos.to_hex_uint p).
Qed.

(** X10 ([generateHash]): the suffix is never empty and is made of
    lowercase hexadecimal digits; it is an end of the full hash text, at
    most [max 1 hashLen] characters long, and it is not padded: the hash
    of the empty text at length 8 is [1505]. *)
Theorem generateHash_shape (s : jsstring) (len : number) :
  generateHash s len ≠ []
  ∧ Forall (λ c, is_lower_hex c = true) (generateHash s len)
  ∧ generateHash s len `suffix_of` generateHash s NaN
  ∧ (∀ z, len = Int z → length (generateHash s len) ≤ Z.to_nat (Z.max 1 z))
  ∧ generateHash [] (Int 8) = js "1505".
Proof.
  unfold generateHash.
  set (h := hexadecimal (Z.to_N (to_uint32 (hash_loop s)))).
  pose proof (hexadecimal_nonempty (Z.to_N (to_uint32 (hash_loop s)))) as Hne.
  fold h in Hne.
  assert (Forall (λ c, is_lower_hex c = true) h) as Hhex by apply hex_units_lower.
  destruct len as [|z]; cbn [math_max slice_neg]; split_and!;
    try done; unfold slice_last.
  - intros E. apply (f_equal length) in E. rewrite length_drop in E.
    destruct h; [done|]. simpl in E. lia.
  - by apply Forall_drop.
  - apply suffix_drop.
  - intros ? [= <-]. rewrite length_drop. lia.
Qed.

(** ** Names *)

Lemma replaceAll_loop_absent c pat repl before s :
  c ∉ s → replaceAll_loop (c :: pat) repl 0 before s = s.
Proof.
  revert before. induction s as [|x s IH]; intros before Hc; [done|].
  apply not_elem_of_cons in Hc as [Hx Hs].
  cbn [replaceAll_loop starts_with].
  destruct (c =? x)%N eqn:E; [by apply N.eqb_eq in E|].
  cbn [andb]. by rewrite IH.
Qed.

Lemma replaceAll_absent c pat repl s :
  c ∉ s → replaceAll (c :: pat) repl s = s.
Proof. apply replaceAll_loop_absent. Qed.

Lemma utf16_encode_ne cp : utf16_encode cp ≠ [].
Proof. unfold utf16_encode. by destruct (cp <? 65536)%N. Qed.

Lemma decodeURI_nonempty c s r : decodeURI (c :: s) = Ok r → r ≠ [].
Proof.
  cbn [decodeURI].
  repeat (case_match; try done);
    try (intros (? & _ & [= <-])%bind_Ok; try done;
         by intros [E _]%app_eq_nil; apply utf16_encode_ne in E).
Qed.

Section Names.
Context `{rt : Runtime}.
Variable cfg : config.

Lemma fill_template_plain typeDisplay regionStr newName :
  123%N ∉ template cfg →
  fill_template cfg typeDisplay regionStr newName = template cfg.
Proof.
  intros H. unfold fill_template.
  change (js "{prefix}") with (123%N :: js "prefix}").
  change (js "{sep}") with (123%N :: js "sep}").
  change (js "{type}") with (123%N :: js "type}").
  change (js "{region}") with (123%N :: js "region}").
  change (js "{name}") with (123%N :: js "name}").
  rewrite (replaceAll_absent _ _ (subName cfg) (template cfg)) by done.
  rewrite (replaceAll_absent _ _ (sep cfg) (template cfg)) by done.
  rewrite (replaceAll_absent _ _ typeDisplay (template cfg)) by done.
  rewrite (replaceAll_absent _ _ regionStr (template cfg)) by done.
  by rewrite (replaceAll_absent _ _ newName (template cfg)).
Qed.

Lemma finish_name_length s z :
  maxLen cfg = Int z → (0 < z)%Z → length (finish_name cfg s) ≤ Z.to_nat z.
Proof.
  intros Hm Hz. unfold finish_name. rewrite Hm.
  assert ((0 <? z)%Z = true) as -> by by apply Z.ltb_lt.
  by apply truncateText_length.
Qed.

Lemma fallbackFlag_nonempty args :
  parseConfig args = Ok cfg → fallbackFlag cfg ≠ [].
Proof.
  intros Hf%parseConfig_fallback. unfold decoded_or in Hf.
  destruct (args !! "fallbackFlag") as [[|c s]|]; simpl in Hf;
    try (by injection Hf as <-).
  by apply decodeURI_nonempty in Hf.
Qed.

(** X11 ([maxLen], [truncateText]): under a positive [maxLen] the name a
    node gets from the rename stage is at most [maxLen] code units long; a
    text of at most that length is not cut, a longer one is cut to its first
    [maxLen - 1] code units and an ellipsis. *)
Theorem maxLen_bounds_names (z : Z) :
  maxLen cfg = Int z → (0 < z)%Z →
  (∀ p, length (node_name (processName cfg p)) ≤ Z.to_nat z)
  ∧ (∀ s, (Z.of_nat (length s) ≤ z)%Z → truncateText s z = s)
  ∧ (∀ s, (z < Z.of_nat (length s))%Z →
       truncateText s z = take (Z.to_nat z - 1) s ++ [8230%N]).
Proof.
  intros Hm Hz. split_and!.
  - intros p. unfold processName. rewrite node_name_set_field.
    unfold new_name. by apply finish_name_length.
  - intros s Hs. by apply truncateText_short.
  - intros s Hs. apply truncateText_long. lia.
Qed.

(** X12 (a template without placeholders): when the template is not empty
    and holds no opening brace, every node gets the same name, the template
    itself after the text steps, whatever its own name, type and region. *)
Theorem template_without_placeholder (p q : obj) :
  template cfg ≠ [] → 123%N ∉ template cfg →
  new_name cfg p = finish_name cfg (template cfg)
  ∧ node_name (processName cfg p) = node_name (processName cfg q).
Proof.
  intros Ht%truthy_ne Hb.
  assert (∀ x, new_name cfg x = finish_name cfg (template cfg)) as H.
  { intros x. unfold new_name, shouldFormat. rewrite Ht.
    rewrite orb_true_r. cbn [orb]. by rewrite fill_template_plain. }
  split; [apply H|].
  unfold processName. by rewrite !node_name_set_field, !H.
Qed.

(** X13 ([cleanRegionFromName]): with [removeRegionName] off the name is
    returned as it is; with it on, what is left of the name has no
    whitespace at either end, no two whitespace characters in a row, and no
    whitespace character other than the space. *)
Theorem strip_region_normalises_whitespace (name : jsstring) :
  (removeRegionName cfg = false → cleanRegionFromName cfg name = name)
  ∧ (removeRegionName cfg = true →
     trimmed (cleanRegionFromName cfg name)
     ∧ no_neighbours both_space (cleanRegionFromName cfg name)
     ∧ Forall (λ c, is_space c = true → c = 32%N)
         (cleanRegionFromName cfg name)).
Proof.
  unfold cleanRegionFromName. split; intros ->; [done|]. cbn [negb].
  split_and!.
  - apply trim_trimmed.
  - apply trim_no_neighbours, replace_runs_no_double, flush_one_shape.
  - apply trim_sub, replace_runs_plain_space.
Qed.

(** X14 ([buildRegionStr]): the fallback flag the options resolve to is
    never empty; with [addFlag] off the region segment is empty, with it on
    it never is, and a name no region rule matches gets the fallback flag
    alone. *)
Theorem region_string_never_empty (args : gmap string jsstring)
    (name : jsstring) :
  parseConfig args = Ok cfg →
  fallbackFlag cfg ≠ []
  ∧ (addFlag cfg = false → buildRegionStr cfg name = [])
  ∧ (addFlag cfg = true → buildRegionStr cfg name ≠ [])
  ∧ (addFlag cfg = true → detectRegion cfg name = None →
     buildRegionStr cfg name = fallbackFlag cfg).
Proof.
  intros Hc. pose proof (fallbackFlag_nonempty _ Hc) as Hf.
  split_and!; [done| | |].
  - intros Ha. unfold buildRegionStr. by rewrite Ha.
  - intros Ha. unfold buildRegionStr. rewrite Ha. cbn [negb].
    set (f := or_default _ (fallbackFlag cfg)).
    assert (f ≠ []) as Hne.
    { subst f. unfold or_default. destruct (flag <$> _) as [s|]; [|done].
      destruct (truthy s) eqn:E; [by apply truthy_ne|done]. }
    destruct (str_eqb _ _); [done|].
    destruct (truthy _); [|done]. by intros [? _]%app_eq_nil.
  - intros Ha Hd. unfold buildRegionStr. rewrite Ha, Hd.
    cbn [negb fmap option_fmap option_map or_default truthy].
    destruct (str_eqb _ (js "flag")); [done|]. by destruct (str_eqb _ _).
Qed.

(** X15 ([detectRegion]): the rule found is the first one, user rules
    before the built-in ones, whose pattern matches the name; so a matching
    user rule keeps every built-in rule from being used, and no rule is found
    exactly when none matches. *)
Theorem detectRegion_first_match (name : jsstring) :
  detectRegion cfg name
  = List.find (λ r, key_test (key r) name) (userRegions cfg ++ builtInRegions)
  ∧ (∀ r, detectRegion cfg name = Some r →
       key_test (key r) name = true
       ∧ ∃ before after,
           userRegions cfg ++ builtInRegions = before ++ r :: after
           ∧ Forall (λ r', key_test (key r') name = false) before)
  ∧ (∀ r, r ∈ userRegions cfg → key_test (key r) name = true →
       ∃ r', detectRegion cfg name = Some r' ∧ r' ∈ userRegions cfg)
  ∧ (detectRegion cfg name = None
     ↔ ∀ r, r ∈ userRegions cfg ++ builtInRegions →
            key_test (key r) name = false).
Proof.
  assert (detectRegion cfg name
    = List.find (λ r, key_test (key r) name) (userRegions cfg ++ builtInRegions))
    as Hfind.
  { unfold detectRegion. induction (userRegions cfg) as [|x l IH].
    - cbn [List.find app]. by destruct (List.find _ _).
    - rewrite <- app_comm_cons. cbn [List.find].
      by destruct (key_test (key x) name). }
  split_and!; [done| | |].
  - rewrite Hfind. generalize (userRegions cfg ++ builtInRegions).
    intros l r. induction l as [|x l IH]; [done|]. cbn [List.find].
    destruct (key_test (key x) name) eqn:E.
    + intros [= <-]. split; [done|]. by exists [], l.
    + intros Hr. destruct (IH Hr) as (Ht & before & after & -> & Hb).
      split; [done|]. exists (x :: before), after. split; [done|].
      by constructor.
  - intros r Hr Ht. unfold detectRegion.
    destruct (List.find _ (userRegions cfg)) as [r'|] eqn:E.
    + exists r'. split; [done|].
      apply find_some in E as [Hin _]. by apply list_elem_of_In.
    + apply list_elem_of_In in Hr.
      by rewrite (find_none _ _ E r Hr) in Ht.
  - rewrite Hfind. split.
    + intros Hn r Hr%list_elem_of_In. by apply (find_none _ _ Hn).
    + intros Hall. destruct (List.find _ _) as [r|] eqn:E; [|done].
      apply find_some in E as [Hin%list_elem_of_In Ht].
      by rewrite (Hall r Hin) in Ht.
Qed.

End Names.

Lemma maxLen_bounds_names_witness :
  node_name
    (processName (rt := reference_runtime)
       (config_with [] false false (Int 5) (Int 2) (Int 4) "" "" "index")
       (node "Singapore 01" "vmess" "a.example" 443))
  = js "Sing…"
  ∧ length
      (node_name
         (processName (rt := reference_runtime)
            (config_with [] false false (Int 5) (Int 2) (Int 4) "" "" "index")
            (node "Singapore 01" "vmess" "a.example" 443)))
    ≤ 5.
Proof.
  destruct (maxLen_bounds_names (rt := reference_runtime)
              (config_with [] false false (Int 5) (Int 2) (Int 4) "" "" "index") 5
              eq_refl eq_refl) as (Hlen & _ & _).
  split; [reflexivity|].
  apply (Hlen (node "Singapore 01" "vmess" "a.example" 443)).
Defined.

Lemma template_without_placeholder_witness :
  node_name
    (processName (rt := reference_runtime)
       (config_with (js "Node") false false (Int 0) (Int 2) (Int 4) "" "" "index")
       (node "HK" "vmess" "a.example" 443))
  = node_name
      (processName (rt := reference_runtime)
         (config_with (js "Node") false false (Int 0) (Int 2) (Int 4) "" "" "index")
         (node "US" "trojan" "b.example" 443)).
Proof.
  apply (template_without_placeholder (rt := reference_runtime)
           (config_with (js "Node") false false (Int 0) (Int 2) (Int 4) "" "" "index")).
  - done.
  - apply (bool_decide_unpack _). vm_compute. exact I.
Defined.

Lemma strip_region_normalises_whitespace_witness :
  cleanRegionFromName (rt := reference_runtime)
    (config_with [] true false (Int 0) (Int 2) (Int 4) "" "" "index")
    (js " 🇭🇰 香港   IEPL  01 ")
  = js "IEPL 01"
  ∧ trimmed
      (cleanRegionFromName (rt := reference_runtime)
         (config_with [] true false (Int 0) (Int 2) (Int 4) "" "" "index")
         (js " 🇭🇰 香港   IEPL  01 ")).
Proof.
  split; [vm_compute; reflexivity|].
  destruct (strip_region_normalises_whitespace (rt := reference_runtime)
              (config_with [] true false (Int 0) (Int 2) (Int 4) "" "" "index")
              (js " 🇭🇰 香港   IEPL  01 ")) as [_ H].
  destruct (H eq_refl) as (Ht & _ & _). exact Ht.
Defined.

Lemma region_string_never_empty_witness :
  parseConfig (rt := reference_runtime) flag_prefix_args
  = Ok (base_config (js "MySub") true "index")
  ∧ buildRegionStr (rt := reference_runtime)
      (base_config (js "MySub") true "index") (js "Node 01")
    = js "🏴‍☠️".
Proof.
  assert (parseConfig (rt := reference_runtime) flag_prefix_args
          = Ok (base_config (js "MySub") true "index")) as Hc
    by (by apply (parseConfig_flag_prefix (js "MySub") (js "MySub"))).
  split; [exact Hc|].
  destruct (region_string_never_empty (rt := reference_runtime)
              (base_config (js "MySub") true "index") flag_prefix_args
              (js "Node 01") Hc) as (_ & _ & _ & H).
  apply H; [reflexivity|]. vm_compute. reflexivity.
Defined.

(** ** The reference comparison is an order *)

Lemma compare_units_anti a b : compare_units b a = (- compare_units a b)%Z.
Proof.
  revert b. induction a as [|x a IH]; intros [|y b]; simpl; try done.
  destruct (N.ltb_spec y x), (N.ltb_spec x y); try lia; try done.
Qed.

Lemma compare_units_trans a b c :
  (compare_units a b ≤ 0)%Z → (compare_units b c ≤ 0)%Z →
  (compare_units a c ≤ 0)%Z.
Proof.
  revert b c. induction a as [|x a IH]; intros [|y b] [|z c]; simpl; try lia.
  destruct (N.ltb_spec x y), (N.ltb_spec y x), (N.ltb_spec y z),
    (N.ltb_spec z y), (N.ltb_spec x z), (N.ltb_spec z x); try lia.
  all: apply IH.
Qed.

(** ** More on the stages *)

Lemma omap_length_le {A B} (f : A → option B) l : length (omap f l) ≤ length l.
Proof.
  induction l as [|x l IH]; [done|]. cbn [omap list_omap].
  destruct (f x); simpl; lia.
Qed.

Section MoreStages.
Context `{rt : Runtime}.
Variable cfg : config.

Lemma run_length vs : length (run cfg (VArray vs)) ≤ length vs.
Proof.
  unfold run.
  set (F := filter _ (sanitize (VArray vs))).
  destruct (conflict_stage_renamed cfg
    (sort_stage cfg (processName cfg <$> dedupe_stage cfg F)))
    as (l' & Hsub & Hall).
  rewrite <- (Forall2_length _ _ _ Hall).
  apply sublist_length in Hsub.
  rewrite (Permutation_length (sort_stage_perm cfg _)), length_fmap in Hsub.
  pose proof (sublist_length _ _ (dedupe_stage_sublist cfg F)).
  pose proof (length_filter (λ p, keep cfg p = true) (sanitize (VArray vs))).
  pose proof (omap_length_le fields_of vs).
  unfold sanitize in *. subst F. lia.
Qed.




Lemma conflict_loop_drop m earlier l :
  conflict cfg = js "drop" →
  (∀ name, default 0%N (m !! name) = 0%N ↔ name ∉ earlier) →
  conflict_loop cfg m l = first_per_key node_name earlier l.
Proof.
  intros Hc. revert m earlier. induction l as [|p l IH]; intros m earlier Hm; [done|].
  cbn [conflict_loop first_per_key]. rewrite Hc.
  change (str_eqb (js "drop") (js "drop")) with true.
  assert (∀ name,
    default 0%N (<[node_name p := (default 0%N (m !! node_name p) + 1)%N]> m !! name)
    = 0%N ↔ name ∉ earlier ++ [node_name p]) as Hm'.
  { intros name. rewrite elem_of_app, list_elem_of_singleton.
    destruct (decide (node_name p = name)) as [<-|Hne].
    - rewrite lookup_insert_eq. cbn [default from_option id]. split; [lia|tauto].
    - rewrite lookup_insert_ne by done. rewrite Hm. split; [|tauto].
      intros ? [?|?]; [done|congruence]. }
  rewrite (IH _ _ Hm').
  destruct (decide (node_name p ∈ earlier)) as [Hin|Hin].
  - destruct (_ =? 1)%N eqn:E; [|done].
    apply N.eqb_eq in E.
    assert (default 0%N (m !! node_name p) = 0%N) as H0 by lia.
    by apply Hm in H0.
  - apply Hm in Hin. by rewrite Hin.
Qed.

Lemma conflict_stage_drop l :
  conflict cfg = js "drop" →
  conflict_stage cfg l = first_per_key node_name [] l.
Proof.
  intros Hc. unfold conflict_stage. rewrite Hc.
  change (str_eqb (js "drop") (js "none")) with false. cbv iota.
  apply conflict_loop_drop; [done|]. intros name. rewrite lookup_empty.
  split; [by intros _ ?%elem_of_nil|done].
Qed.

(** The [seen] set and the keys of the nodes passed so far agree, for any
    key made of a fixed prefix and a text read off the node. *)
Lemma dedupe_loop_keyed (pre : jsstring) (f : obj → jsstring) seen earlier l :
  (∀ p, dedupe_key cfg p = Some (pre ++ f p)) →
  (∀ a, pre ++ a ∈ seen ↔ a ∈ earlier) →
  dedupe_loop cfg seen l = first_per_key f earlier l.
Proof.
  intros Hkey. revert seen earlier.
  induction l as [|p l IH]; intros seen earlier Hs; [done|].
  cbn [dedupe_loop first_per_key]. rewrite Hkey.
  destruct (decide (f p ∈ earlier)) as [Hin|Hin].
  - rewrite bool_decide_eq_true_2 by by apply Hs.
    simpl. apply IH. intros a. rewrite Hs, elem_of_app, list_elem_of_singleton.
    split; [by left|]. by intros [?| ->].
  - rewrite bool_decide_eq_false_2 by by rewrite Hs.
    simpl. f_equal. apply IH. intros a.
    rewrite elem_of_union, elem_of_singleton, Hs, elem_of_app, list_elem_of_singleton.
    split.
    + intros [E|?]; [right|by left]. by apply (inj (app pre)) in E.
    + intros [?| ->]; [by right|by left].
Qed.

Lemma dedupe_loop_unkeyed seen l :
  (∀ p, dedupe_key cfg p = None) → dedupe_loop cfg seen l = l.
Proof.
  intros Hkey. induction l as [|p l IH]; [done|].
  cbn [dedupe_loop]. by rewrite Hkey, IH.
Qed.

Lemma str_eqb_ne a b : a ≠ b → str_eqb a b = false.
Proof. intros H. unfold str_eqb. by apply bool_decide_eq_false_2. Qed.

Section Consistent.
Hypothesis Hanti : ∀ a b,
  Z.sgn (localeCompare b a) = (- Z.sgn (localeCompare a b))%Z.
Hypothesis Htrans : ∀ a b c,
  (localeCompare a b ≤ 0)%Z → (localeCompare b c ≤ 0)%Z →
  (localeCompare a c ≤ 0)%Z.

Lemma ordered_total a b : ¬ ordered cfg a b → ordered cfg b a.
Proof.
  unfold ordered, compare_nodes. specialize (Hanti (sort_key cfg a) (sort_key cfg b)).
  destruct (str_eqb _ _); lia.
Qed.

Lemma ordered_trans a b c : ordered cfg a b → ordered cfg b c → ordered cfg a c.
Proof.
  unfold ordered, compare_nodes.
  pose proof (Hanti (sort_key cfg a) (sort_key cfg b)).
  pose proof (Hanti (sort_key cfg b) (sort_key cfg c)).
  pose proof (Hanti (sort_key cfg a) (sort_key cfg c)).
  pose proof (Htrans (sort_key cfg a) (sort_key cfg b) (sort_key cfg c)).
  pose proof (Htrans (sort_key cfg c) (sort_key cfg b) (sort_key cfg a)).
  destruct (str_eqb _ _); lia.
Qed.

Lemma ordered_same_key a b : sort_key cfg a = sort_key cfg b → ordered cfg a b.
Proof.
  unfold ordered, compare_nodes. intros ->.
  specialize (Hanti (sort_key cfg b) (sort_key cfg b)).
  destruct (str_eqb _ _); lia.
Qed.

Lemma insert_sorted_sorted x l :
  StronglySorted (ordered cfg) l →
  StronglySorted (ordered cfg) (insert_sorted cfg x l).
Proof.
  induction 1 as [|y l Hl IH Hy]; cbn [insert_sorted].
  - by repeat constructor.
  - destruct (_ <=? _)%Z eqn:E.
    + apply Z.leb_le in E. constructor; [by constructor|].
      constructor; [done|].
      eapply Forall_impl; [exact Hy|]. intros z Hz. by eapply ordered_trans.
    + apply Z.leb_gt in E. constructor; [done|].
      rewrite insert_sorted_perm. constructor; [|done].
      apply ordered_total. unfold ordered. lia.
Qed.

Lemma sort_sorted l :
  StronglySorted (ordered cfg) (foldr (insert_sorted cfg) [] l).
Proof.
  induction l as [|x l IH]; simpl; [constructor|by apply insert_sorted_sorted].
Qed.

Lemma insert_sorted_stable k x l :
  filter (λ p, sort_key cfg p = k) (insert_sorted cfg x l)
  = filter (λ p, sort_key cfg p = k) (x :: l).
Proof.
  induction l as [|y l IH]; cbn [insert_sorted]; [done|].
  destruct (_ <=? _)%Z eqn:E; [done|]. apply Z.leb_gt in E.
  rewrite filter_cons, IH, !filter_cons.
  destruct (decide (sort_key cfg y = k)) as [Hy|Hy];
    destruct (decide (sort_key cfg x = k)) as [Hx|Hx]; try done.
  pose proof (ordered_same_key x y) as Ho. unfold ordered in Ho.
  rewrite Hx, Hy in Ho. specialize (Ho eq_refl). lia.
Qed.

Lemma sort_stable k l :
  filter (λ p, sort_key cfg p = k) (foldr (insert_sorted cfg) [] l)
  = filter (λ p, sort_key cfg p = k) l.
Proof.
  induction l as [|x l IH]; [done|]. cbn [foldr].
  by rewrite insert_sorted_stable, !filter_cons, IH.
Qed.

End Consistent.


(** X17 ([dedupe=name], [dedupe=all], other values): under [name] a node
    survives exactly when no earlier node has its name, so the names that
    leave the stage are pairwise distinct; under [all] exactly when no
    earlier node has both its address key and its name (as the text
    [addr|N|name]); any value other than [addr], [name] and [all], the
    empty one included, leaves the list as it is. *)
Theorem dedupe_name_all_other (l : list obj) :
  (dedupe cfg = js "name" →
   dedupe_stage cfg l = first_per_key node_name [] l
   ∧ NoDup (node_name <$> dedupe_stage cfg l))
  ∧ (dedupe cfg = js "all" →
     dedupe_stage cfg l
     = first_per_key (λ p, addr_of p ++ js "|N|" ++ node_name p) [] l)
  ∧ (dedupe cfg ∉ [js "addr"; js "name"; js "all"] → dedupe_stage cfg l = l).
Proof.
  split_and!.
  - intros Hd.
    assert (dedupe_stage cfg l = first_per_key node_name [] l) as ->.
    { unfold dedupe_stage. rewrite Hd. cbn [truthy].
      apply (dedupe_loop_keyed (js "N|")).
      - intros p. unfold dedupe_key. by rewrite Hd.
      - intros a. by rewrite elem_of_empty, elem_of_nil. }
    split; [done|apply first_per_key_NoDup].
  - intros Hd. unfold dedupe_stage. rewrite Hd. cbn [truthy].
    apply (dedupe_loop_keyed (js "A|")).
    + intros p. unfold dedupe_key. by rewrite Hd.
    + intros a. by rewrite elem_of_empty, elem_of_nil.
  - intros Hd. unfold dedupe_stage. destruct (truthy _); [|done].
    apply dedupe_loop_unkeyed. intros p. unfold dedupe_key.
    rewrite !str_eqb_ne; [done|..]; intros E; apply Hd; rewrite E;
      set_solver.
Qed.

(** X18 (the sort stage): when the host's comparison is an order
    (antisymmetric in sign, transitive), the stage returns a rearrangement
    of its input, the input itself when [sortBy] is empty, and otherwise a
    list sorted by the script's comparator, whatever [sortOrder] is; nodes
    with the same sort key keep their input order. *)
Theorem sort_stage_sorts (l : list obj) :
  (∀ a b, Z.sgn (localeCompare b a) = (- Z.sgn (localeCompare a b))%Z) →
  (∀ a b c, (localeCompare a b ≤ 0)%Z → (localeCompare b c ≤ 0)%Z →
            (localeCompare a c ≤ 0)%Z) →
  sort_stage cfg l ≡ₚ l
  ∧ (sortBy cfg = [] → sort_stage cfg l = l)
  ∧ (sortBy cfg ≠ [] → StronglySorted (ordered cfg) (sort_stage cfg l))
  ∧ (∀ k, filter (λ p, sort_key cfg p = k) (sort_stage cfg l)
          = filter (λ p, sort_key cfg p = k) l).
Proof.
  intros Hanti Htrans. split_and!.
  - apply sort_stage_perm.
  - intros Hs. unfold sort_stage. by rewrite Hs.
  - intros Hs%truthy_ne. unfold sort_stage. rewrite Hs. by apply sort_sorted.
  - intros k. unfold sort_stage. destruct (truthy _); [|done].
    by apply sort_stable.
Qed.

(** X19 ([conflict=drop]): a node survives the conflict stage exactly when
    no earlier node of the list has its name, and it keeps its name; so the
    names of the output are pairwise distinct, for every value of
    [proxies]. *)
Theorem conflict_drop_first_wins (proxies : value) :
  conflict cfg = js "drop" →
  (∀ l, conflict_stage cfg l = first_per_key node_name [] l)
  ∧ NoDup (node_name <$> run cfg proxies).
Proof.
  intros Hc. split; [intros l; by apply conflict_stage_drop|].
  unfold run. rewrite conflict_stage_drop by done. apply first_per_key_NoDup.
Qed.

(** X20 (conflict modes and widths that are no keywords and no numbers):
    every [conflict] value other than [none], [drop] and [hash] numbers
    repeated names like [index]; an [indexPad] that is not a number gives
    the bare occurrence count, a [hashLen] that is not a number the whole
    hash. *)
Theorem conflict_fallbacks (l : list obj) (i : nat) (p : obj) :
  l !! i = Some p →
  node_name p ∈ node_name <$> take i l →
  conflict cfg ∉ [js "none"; js "drop"] →
  let count := (occurrences (node_name p) (take i l) + 1)%N in
  (conflict cfg ≠ js "hash" → ∀ w, indexPad cfg = Int w →
     conflict_stage cfg l !! i
     = Some (set_field "name"
               (VStr (node_name p ++ js " "
                      ++ padStart0 (Z.max 2 w) (decimal count))) p))
  ∧ (conflict cfg ≠ js "hash" → indexPad cfg = NaN →
     conflict_stage cfg l !! i
     = Some (set_field "name"
               (VStr (node_name p ++ js " " ++ decimal count)) p))
  ∧ (conflict cfg = js "hash" → hashLen cfg = NaN →
     conflict_stage cfg l !! i
     = Some (set_field "name"
               (VStr (node_name p ++ js "-"
                      ++ hexadecimal (Z.to_N (rolling_hash (hash_input p))))) p)).
Proof.
  intros Hi Hrep Hmode count.
  assert (str_eqb (conflict cfg) (js "none") = false) as Hn
    by (apply str_eqb_ne; intros E; apply Hmode; rewrite E;
        apply (bool_decide_unpack _); vm_compute; exact I).
  assert (str_eqb (conflict cfg) (js "drop") = false) as Hd
    by (apply str_eqb_ne; intros E; apply Hmode; rewrite E;
        apply (bool_decide_unpack _); vm_compute; exact I).
  assert (conflict_stage cfg l !! i = Some (resolve cfg count p)) as ->.
  { unfold conflict_stage. rewrite Hn.
    rewrite (conflict_loop_lookup cfg ∅ l i p Hd Hi), lookup_empty.
    by rewrite N.add_0_l. }
  assert ((count =? 1)%N = false) as Hcount.
  { apply N.eqb_neq. apply occurrences_pos in Hrep. subst count. lia. }
  unfold resolve, index_suffix. rewrite Hcount. split_and!.
  - intros Hh w ->. by rewrite (str_eqb_ne _ _ Hh).
  - intros Hh ->. by rewrite (str_eqb_ne _ _ Hh).
  - intros -> ->. by rewrite generateHash_nan.
Qed.

End MoreStages.

Section MoreRuns.
Context `{rt : Runtime}.

Lemma processName_base mode p :
  has_name p → processName (base_config [] false mode) p = p.
Proof.
  intros [n Hn]. unfold processName.
  assert (new_name (base_config [] false mode) p = n) as ->;
    [|by apply set_field_same].
  unfold new_name, node_name. rewrite Hn. cbn [safeStr to_string].
  reflexivity.
Qed.

(** X21 (the length of the output): the call never returns more nodes
    than the array it was given holds. *)
Theorem output_never_longer (args : gmap string jsstring)
    (vs : list value) (out : list obj) :
  operator args (VArray vs) = Ok out → length out ≤ length vs.
Proof.
  unfold operator. intros (cfg & _ & [= <-])%bind_Ok. apply run_length.
Qed.

(** X22 ([conflict=none]): with this one option set, a list of records
    whose names are strings is returned as it is, repeated names
    included. *)
Theorem conflict_none_is_identity (l : list obj) :
  Forall has_name l →
  operator none_args (VArray (VObject <$> l)) = Ok l.
Proof.
  intros Hl. unfold operator. rewrite parseConfig_none.
  cbn [mbind result_bind]. f_equal. unfold run.
  rewrite sanitize_records, filter_all by done.
  change (dedupe_stage (base_config [] false "none") l) with l.
  assert (processName (base_config [] false "none") <$> l = l) as ->; [|done].
  induction Hl as [|p l Hp _ IH]; [done|].
  by rewrite fmap_cons, processName_base, IH.
Qed.

End MoreRuns.

Lemma dedupe_name_all_other_witness :
  dedupe_stage (rt := reference_runtime)
    (config_with [] false false (Int 0) (Int 2) (Int 4) "name" "" "index")
    repeated_nodes
  = [node "B" "vmess" "a.example" 443; node "A" "trojan" "b.example" 443].
Proof.
  destruct (dedupe_name_all_other (rt := reference_runtime)
              (config_with [] false false (Int 0) (Int 2) (Int 4) "name" "" "index")
              repeated_nodes) as (H & _ & _).
  destruct (H eq_refl) as [-> _]. reflexivity.
Defined.

Lemma sort_stage_sorts_witness :
  sort_stage (rt := reference_runtime)
    (config_with [] false false (Int 0) (Int 2) (Int 4) "" "name" "index")
    repeated_nodes
  = [node "A" "trojan" "b.example" 443; node "B" "vmess" "a.example" 443;
     node "B" "vless" "c.example" 8443]
  ∧ StronglySorted
      (ordered (rt := reference_runtime)
         (config_with [] false false (Int 0) (Int 2) (Int 4) "" "name" "index"))
      (sort_stage (rt := reference_runtime)
         (config_with [] false false (Int 0) (Int 2) (Int 4) "" "name" "index")
         repeated_nodes).
Proof.
  split; [reflexivity|].
  apply (sort_stage_sorts (rt := reference_runtime)
           (config_with [] false false (Int 0) (Int 2) (Int 4) "" "name" "index")
           repeated_nodes).
  - intros a b. cbn [localeCompare reference_runtime].
    by rewrite compare_units_anti, Z.sgn_opp.
  - intros a b c. apply compare_units_trans.
  - done.
Defined.

Lemma conflict_drop_first_wins_witness :
  conflict_stage (rt := reference_runtime)
    (config_with [] false false (Int 0) (Int 2) (Int 4) "" "" "drop") repeated_nodes
  = [node "B" "vmess" "a.example" 443; node "A" "trojan" "b.example" 443]
  ∧ NoDup
      (node_name
       <$> run (rt := reference_runtime)
             (config_with [] false false (Int 0) (Int 2) (Int 4) "" "" "drop")
             (VArray (VObject <$> repeated_nodes))).
Proof.
  destruct (conflict_drop_first_wins (rt := reference_runtime)
              (config_with [] false false (Int 0) (Int 2) (Int 4) "" "" "drop")
              (VArray (VObject <$> repeated_nodes)) eq_refl) as [Hstage Hnames].
  split; [|exact Hnames]. rewrite Hstage. reflexivity.
Defined.

Lemma conflict_fallbacks_witness :
  int_or (Some (js "wide")) 2 = NaN
  ∧ conflict_stage (rt := reference_runtime)
      (config_with [] false false (Int 0) NaN NaN "" "" "number") repeated_nodes
    !! 2%nat
    = Some (set_field "name" (str "B 2") (node "B" "vless" "c.example" 8443)).
Proof.
  split; [reflexivity|].
  destruct (conflict_fallbacks (rt := reference_runtime)
              (config_with [] false false (Int 0) NaN NaN "" "" "number")
              repeated_nodes 2%nat (node "B" "vless" "c.example" 8443))
    as (_ & Hnan & _).
  - reflexivity.
  - apply (bool_decide_unpack _). vm_compute. exact I.
  - apply (bool_decide_unpack _). vm_compute. exact I.
  - rewrite Hnan; [reflexivity| |reflexivity].
    apply (bool_decide_unpack _). vm_compute. exact I.
Defined.

Lemma output_never_longer_witness :
  operator (rt := reference_runtime) dedupe_args
    (VArray (VObject <$> mixed_case_nodes))
  = Ok [node "A" "vmess" "a.example" 443; node "C" "vmess" "c.example" 443]
  ∧ length [node "A" "vmess" "a.example" 443; node "C" "vmess" "c.example" 443]
    ≤ length (VObject <$> mixed_case_nodes).
Proof.
  assert (operator (rt := reference_runtime) dedupe_args
            (VArray (VObject <$> mixed_case_nodes))
          = Ok [node "A" "vmess" "a.example" 443;
                node "C" "vmess" "c.example" 443]) as H
    by (vm_compute; reflexivity).
  split; [exact H|].
  exact (output_never_longer (rt := reference_runtime) _ _ _ H).
Defined.

Lemma conflict_none_is_identity_witness :
  operator (rt := reference_runtime) none_args (VArray (VObject <$> hk_nodes))
  = Ok hk_nodes.
Proof.
  apply (conflict_none_is_identity (rt := reference_runtime) hk_nodes).
  repeat constructor; by eexists.
Defined.

(** ** Sanitised names through the pipeline *)

Lemma replace_runs_sub (P : N → Prop) flush pending s :
  (∀ run, Forall P run → Forall P (flush run)) →
  Forall P pending → Forall P s →
  Forall P (replace_space_runs flush pending s).
Proof.
  intros Hf Hp Hs. revert pending Hp.
  induction Hs as [|c s Hc _ IH]; intros pending Hp; simpl; [by apply Hf|].
  destruct (is_space c).
  - apply IH, Forall_app. split; [done|by repeat constructor].
  - apply Forall_app. split; [by apply Hf|].
    constructor; [done|]. apply IH. constructor.
Qed.

Lemma trimSpaces_sub (P : N → Prop) s :
  P 32%N → Forall P s → Forall P (trimSpaces s).
Proof.
  intros H32 Hs. apply trim_sub, replace_runs_sub; [|constructor|done].
  intros run Hr. destruct run as [|a [|b r]]; simpl; [done|done|].
  by repeat constructor.
Qed.

Lemma addCjkSpaces_sub (P : N → Prop) s :
  P 32%N → Forall P s → Forall P (addCjkSpaces s).
Proof.
  intros H32. induction s as [|a [|b r] IH]; [done|done|].
  intros [Ha Hs]%Forall_cons. rewrite addCjkSpaces_cons2.
  constructor; [done|]. apply Forall_app. split; [|by apply IH].
  destruct (boundary a b); by repeat constructor.
Qed.

Lemma truncateText_sub (P : N → Prop) s z :
  P 8230%N → Forall P s → Forall P (truncateText s z).
Proof.
  intros He Hs. unfold truncateText, slice_to.
  destruct (z =? 0)%Z; [done|].
  destruct (z <? Z.of_nat (length s))%Z; [|done].
  apply Forall_app. split; [|by repeat constructor].
  destruct (z - 1 <? 0)%Z; by apply Forall_take.
Qed.

Lemma sanitizeChars_legal s : legal_name (sanitizeChars s).
Proof.
  unfold legal_name, sanitizeChars. apply Forall_fmap, Forall_forall.
  intros c _. simpl. destruct (illegal_char c) eqn:E; [reflexivity|done].
Qed.

Lemma decimal_legal n : legal_name (decimal n).
Proof.
  unfold legal_name, decimal. induction (N.to_uint n); simpl; by constructor.
Qed.

Lemma hexadecimal_legal n : legal_name (hexadecimal n).
Proof.
  unfold legal_name, hexadecimal.
  induction (N.to_hex_uint n); simpl; by constructor.
Qed.

Lemma generateHash_legal s len : legal_name (generateHash s len).
Proof.
  unfold generateHash. destruct len as [|z]; cbn [math_max slice_neg].
  - apply hexadecimal_legal.
  - unfold slice_last. apply Forall_drop, hexadecimal_legal.
Qed.

Section Sanitised.
Context `{rt : Runtime}.
Variable cfg : config.

Lemma index_suffix_legal count : legal_name (index_suffix cfg count).
Proof.
  unfold index_suffix. destruct (math_max 2 (indexPad cfg)) as [|w].
  - apply decimal_legal.
  - unfold padStart0. apply Forall_app. split; [|apply decimal_legal].
    by apply Forall_replicate.
Qed.

Lemma finish_name_legal s :
  enableSanitize cfg = true → enableNormalize cfg = false →
  legal_name (finish_name cfg s).
Proof.
  intros Hs Hn. unfold finish_name. rewrite Hs, Hn.
  pose proof (sanitizeChars_legal
    (if enableRemoveEmoji cfg then removeEmoji s else s)) as H.
  set (t := sanitizeChars _) in *. clearbody t.
  assert (legal_name (if enableTrimSpaces cfg then trimSpaces t else t)) as H1.
  { destruct (enableTrimSpaces cfg); [by apply trimSpaces_sub|done]. }
  set (t1 := if enableTrimSpaces cfg then _ else _) in *. clearbody t1.
  assert (legal_name
    (if enableCjkSpace cfg then trimSpaces (addCjkSpaces t1) else t1)) as H2.
  { destruct (enableCjkSpace cfg); [|done].
    by apply trimSpaces_sub, addCjkSpaces_sub. }
  set (t2 := if enableCjkSpace cfg then _ else _) in *. clearbody t2.
  destruct (maxLen cfg) as [|z]; [done|].
  destruct (0 <? z)%Z; [by apply truncateText_sub|done].
Qed.

Lemma conflict_loop_legal m l :
  Forall (λ p, legal_name (node_name p)) l →
  Forall (λ p, legal_name (node_name p)) (conflict_loop cfg m l).
Proof.
  intros Hl. revert m. induction Hl as [|p l Hp _ IH]; intros m; [done|].
  cbn [conflict_loop]. destruct (_ =? 1)%N; [by constructor|].
  destruct (str_eqb _ (js "drop")); [apply IH|].
  destruct (str_eqb _ (js "hash")); (constructor; [|apply IH]);
    rewrite node_name_set_field; apply Forall_app; (split; [done|]).
  - constructor; [done|apply generateHash_legal].
  - constructor; [done|apply index_suffix_legal].
Qed.

(** X23 ([sanitize] through the pipeline): with [sanitize] on and
    [normalize] off, no name of the output holds any of the nine replaced
    characters, whatever the other options are: the later text steps and the
    conflict suffixes add none.  (Normalisation runs after the replacement
    and is left out for that reason.) *)
Theorem sanitize_reaches_output (proxies : value) :
  enableSanitize cfg = true → enableNormalize cfg = false →
  Forall (λ q, legal_name (node_name q)) (run cfg proxies).
Proof.
  intros Hs Hn. unfold run.
  set (l := dedupe_stage cfg _). clearbody l.
  assert (Forall (λ p, legal_name (node_name p))
            (sort_stage cfg (processName cfg <$> l))) as Hl.
  { rewrite sort_stage_perm. apply Forall_fmap, Forall_forall. intros p _.
    simpl. unfold processName. rewrite node_name_set_field.
    by apply finish_name_legal. }
  unfold conflict_stage. destruct (str_eqb _ _); [done|].
  by apply conflict_loop_legal.
Qed.

End Sanitised.

Lemma sanitize_reaches_output_witness :
  node_name
  <$> run (rt := reference_runtime)
        (config_with [] false true (Int 0) (Int 2) (Int 4) "" "" "index")
        (VArray (VObject <$> slash_nodes))
  = [js "a-b"; js "a-b 02"]
  ∧ Forall (λ q, legal_name (node_name q))
      (run (rt := reference_runtime)
         (config_with [] false true (Int 0) (Int 2) (Int 4) "" "" "index")
         (VArray (VObject <$> slash_nodes))).
Proof.
  split; [vm_compute; reflexivity|].
  by apply (sanitize_reaches_output (rt := reference_runtime)).
Defined.
